(** * Safr: the shelter service (src/services/shelterService)

    A shallow embedding of the shelter-data acquisition pipeline:
    the Overpass normalizer ([mapAmenityToType], [extractCoordinates],
    [transformToShelter]), the AsyncStorage cache ([loadFromCache],
    [saveToCache]), the remote client ([fetchFromAPI]) and the two
    public operations ([getShelters], [refreshShelters]).

    JavaScript numbers are IEEE binary64 values, modelled by Rocq's
    primitive floats.  OpenStreetMap ids are integers, modelled in [Z] and
    printed in decimal as a template literal prints them.  Strings are
    sequences of bytes.  Values have the types the TypeScript source
    declares for them.  Promises are awaited one after the other, so an
    asynchronous function is a function of the world it runs in, and an
    exception is a result of its own.  AsyncStorage, axios, the clock and
    the JSON codec are the environment: the service is modelled for every
    behaviour of theirs.  *)

From Stdlib Require Import ZArith Floats Ascii String.
From Stdlib Require Import DecimalString DecimalPos DecimalZ.
From stdpp Require Import gmap strings list.

Set Warnings "-inexact-float".
Local Open Scope string_scope.
Local Open Scope Z_scope.

(** ** Types *)

Module Types.

Inductive ShelterType : Set :=
  | hospital | pharmacy | fire | police | bunker | unknown.

(** [interface Shelter] *)
Record Shelter : Set := mkShelter {
  id : string;
  type : ShelterType;
  lat : float;
  lng : float;
  name : string;
  capacity : option string;
}.

Inductive ElementType : Set := node | way | relation.

Record Center : Set := mkCenter { center_lat : float; center_lon : float }.

(** The three tags the service reads; any other key of the tag object is
    ignored by the code. *)
Record Tags : Set := mkTags {
  tag_name : option string;
  tag_amenity : option string;
  tag_capacity : option string;
}.

(** [interface OverpassElement]; an optional field is an [option]. *)
Record OverpassElement : Set := mkElement {
  el_type : ElementType;
  el_id : Z;
  el_lat : option float;
  el_lon : option float;
  el_center : option Center;
  el_tags : option Tags;
}.

Inductive Source : Set := cache | api | fallback.

(** [interface ShelterServiceResult] *)
Record ShelterServiceResult : Set := mkResult {
  shelters : list Shelter;
  source : Source;
  error : option string;
}.

End Types.
Export Types.

(** ** Strings of the JavaScript runtime *)

Module Js.

(** [String(n)] for an integer [n]. *)
Definition Number_toString (n : Z) : string :=
  NilZero.string_of_int (Z.to_int n).

Definition toUpperCase_ascii (c : ascii) : ascii :=
  let n := nat_of_ascii c in
  if ((97 <=? n) && (n <=? 122))%nat then ascii_of_nat (n - 32) else c.

(** [s.charAt(0).toUpperCase() + s.slice(1)] *)
Definition capitalize (s : string) : string :=
  match s with
  | EmptyString => EmptyString
  | String c rest => String (toUpperCase_ascii c) rest
  end.

(** Truthiness of a string: only the empty string is falsy. *)
Definition truthy (s : string) : bool :=
  match s with EmptyString => false | String _ _ => true end.

(** [a || b] on optional strings: [undefined] and [""] are falsy. *)
Definition or_else (a : option string) (b : string) : string :=
  match a with
  | Some s => if truthy s then s else b
  | None => b
  end.

End Js.

(** ** The normalizer *)

Definition ShelterType_string (t : ShelterType) : string :=
  match t with
  | hospital => "hospital"
  | pharmacy => "pharmacy"
  | fire => "fire"
  | police => "police"
  | bunker => "bunker"
  | unknown => "unknown"
  end.

Definition ElementType_string (t : ElementType) : string :=
  match t with
  | node => "node"
  | way => "way"
  | relation => "relation"
  end.

Definition mapAmenityToType (amenity : option string) : ShelterType :=
  match amenity with
  | Some "hospital" => hospital
  | Some "pharmacy" => pharmacy
  | Some "fire_station" => fire
  | Some "police" => police
  | Some "shelter" => bunker
  | _ => unknown
  end.

Definition extractCoordinates (element : OverpassElement) : option (float * float) :=
  match el_type element, el_lat element, el_lon element, el_center element with
  | node, Some la, Some lo, _ => Some (la, lo)
  | (way | relation), _, _, Some c => Some (center_lat c, center_lon c)
  | _, _, _, _ => None
  end.

(** [element.tags?.field] *)
Definition tag (field : Tags -> option string) (element : OverpassElement) : option string :=
  match el_tags element with
  | Some t => field t
  | None => None
  end.

Definition transformToShelter (element : OverpassElement) : option Shelter :=
  match extractCoordinates element with
  | None => None
  | Some coords =>
      let type := mapAmenityToType (tag tag_amenity element) in
      let name :=
        Js.or_else (tag tag_name element)
          (Js.capitalize (ShelterType_string type) +:+ " #" +:+ Js.Number_toString (el_id element)) in
      Some {| id := "osm_" +:+ ElementType_string (el_type element) +:+ "_"
                     +:+ Js.Number_toString (el_id element);
              type := type;
              lat := coords.1;
              lng := coords.2;
              name := name;
              capacity := tag tag_capacity element |}
  end.

(** ** The runtime: exceptions, the console, the world *)

Module Runtime.

(** A thrown value, as the [catch] clauses look at it:
    [error instanceof Error ? error.message : ...]. *)
Inductive Thrown : Set :=
  | ErrorObj (message : string)
  | NonError.

Inductive Result (A : Type) : Type :=
  | Ok (a : A)
  | Throw (e : Thrown).
Global Arguments Ok {A} a.
Global Arguments Throw {A} e.

(** [response.data] as the client inspects it:
    [!data.elements || !Array.isArray(data.elements)]. *)
Inductive ResponseData : Set :=
  | NoElements
  | Elements (elements : list OverpassElement).

(** One constructor per [console.log], [console.warn] and [console.error]
    of the service, with the values it prints; the age of the cache is
    kept in milliseconds, the console line shows it in hours. *)
Inductive LogEntry : Set :=
  | LogNoCache
  | LogCacheExpired (cacheAge : Z)
  | LogLoaded (count : nat)
  | ErrLoadingCache (e : Thrown)
  | LogSaved (count : nat)
  | ErrSavingCache (e : Thrown)
  | LogTrying (endpoint : string)
  | WarnInvalidResponse (endpoint : string)
  | LogSuccess (count : nat) (endpoint : string)
  | LogTransformed (count : nat)
  | WarnEndpointFailed (endpoint : string) (errorMsg : string)
  | ErrCacheLoad (e : Thrown)
  | ErrApiFetch (errorMessage : string)
  | WarnFallback
  | LogCacheCleared
  | ErrClearingCache (e : Thrown).

(** What an operation can read and change: the AsyncStorage keys, the
    clock behind [Date.now()], which stands still during one operation,
    the endpoints posted to so far and the console, both oldest first. *)
Record World : Type := mkWorld {
  storage : gmap string string;
  now : Z;
  requests : list string;
  console : list LogEntry;
}.

(** What the service does not decide.  [post_outcome] is what happens in
    the [try] block up to the test of [data.elements]: [Throw] when the
    request is rejected (time out, transport error, status, unreadable
    body) or the data cannot be read, [Ok] with the data otherwise.  [getItem_fault] and [setItem_fault] give the
    keys whose reads and writes AsyncStorage rejects, and with what.
    [JSON_stringify] and [JSON_parse] are the codec of the engine, at the
    type the service reads the cache at ([Shelter[]]); [JSON_parse] throws
    on a text it cannot read. *)
Record Env : Type := mkEnv {
  post_outcome : string -> Result ResponseData;
  getItem_fault : string -> option Thrown;
  setItem_fault : string -> option Thrown;
  JSON_stringify : list Shelter -> string;
  JSON_parse : string -> Result (list Shelter);
}.

(** An awaited computation. The effects made before a throw stay. *)
Definition M (A : Type) : Type := World -> Result A * World.

Definition ret {A} (a : A) : M A := fun w => (Ok a, w).

Definition throw {A} (e : Thrown) : M A := fun w => (Throw e, w).

Definition bind {A B} (m : M A) (k : A -> M B) : M B :=
  fun w =>
    match m w with
    | (Ok a, w') => k a w'
    | (Throw e, w') => (Throw e, w')
    end.

Definition try_catch {A} (body : M A) (handler : Thrown -> M A) : M A :=
  fun w =>
    match body w with
    | (Ok a, w') => (Ok a, w')
    | (Throw e, w') => handler e w'
    end.

(** [Promise.all([p, q])]: both operations run; the first rejection, in
    the order of the array, is the one the caller sees. *)
Definition Promise_all {A B} (p : M A) (q : M B) : M (A * B) :=
  fun w =>
    let (ra, w1) := p w in
    let (rb, w2) := q w1 in
    match ra, rb with
    | Ok a, Ok b => (Ok (a, b), w2)
    | Throw e, _ => (Throw e, w2)
    | Ok _, Throw e => (Throw e, w2)
    end.

(** The world after one more console line, one more request, or a
    change of the stored keys. *)
Definition logged (entry : LogEntry) (w : World) : World :=
  {| storage := storage w; now := now w; requests := requests w;
     console := console w ++ [entry] |}.

Definition requested (endpoint : string) (w : World) : World :=
  {| storage := storage w; now := now w;
     requests := requests w ++ [endpoint]; console := console w |}.

(** The same world found at time [t]. *)
Definition at_time (t : Z) (w : World) : World :=
  {| storage := storage w; now := t; requests := requests w; console := console w |}.

Definition stored (m : gmap string string) (w : World) : World :=
  {| storage := m; now := now w; requests := requests w; console := console w |}.

Definition console_log (entry : LogEntry) : M unit :=
  fun w => (Ok tt, logged entry w).

Definition Date_now : M Z := fun w => (Ok (now w), w).

End Runtime.
Export Runtime.

Declare Scope js_scope.
Delimit Scope js_scope with js.
Notation "x <- m ;; k" := (bind m (fun x => k))
  (at level 100, m at next level, right associativity) : js_scope.
Notation "m ;; k" := (bind m (fun _ => k))
  (at level 100, right associativity) : js_scope.
Local Open Scope js_scope.

(** [parseInt(s, 10)]: leading white space, an optional sign, then the
    longest run of decimal digits; [None] is NaN. *)
Module ParseInt.

Definition is_digit (c : ascii) : bool :=
  let n := nat_of_ascii c in ((48 <=? n) && (n <=? 57))%nat.

Definition is_space (c : ascii) : bool :=
  let n := nat_of_ascii c in ((9 <=? n) && (n <=? 13) || (n =? 32))%nat.

Fixpoint skip_space (s : string) : string :=
  match s with
  | String c rest => if is_space c then skip_space rest else s
  | EmptyString => s
  end.

(** The longest prefix of [s] made of digits. *)
Fixpoint digits (s : string) : string :=
  match s with
  | String c rest => if is_digit c then String c (digits rest) else EmptyString
  | EmptyString => EmptyString
  end.

Definition unsigned (s : string) : option Z :=
  match digits s with
  | EmptyString => None
  | ds => (fun d => Z.of_N (N.of_uint d)) <$> NilEmpty.uint_of_string ds
  end.

Definition parseInt (s : string) : option Z :=
  match skip_space s with
  | String "-" rest => Z.opp <$> unsigned rest
  | String "+" rest => unsigned rest
  | t => unsigned t
  end.

End ParseInt.

(** ** Constants *)

Definition STORAGE_KEY : string := "@safr_shelters_cache".
Definition STORAGE_TIMESTAMP_KEY : string := "@safr_shelters_timestamp".
Definition CACHE_MAX_AGE : Z := 24 * 60 * 60 * 1000.

Definition OVERPASS_ENDPOINTS : list string :=
  [ "https://overpass-api.de/api/interpreter";
    "https://lz4.overpass-api.de/api/interpreter";
    "https://overpass.kumi.systems/api/interpreter" ].

Definition FALLBACK_SHELTERS : list Shelter :=
  [ {| id := "fallback_1"; type := hospital; lat := 45.738205; lng := 21.242398;
       name := "Spitalul Județean Timișoara"; capacity := None |};
    {| id := "fallback_2"; type := hospital; lat := 45.747479; lng := 21.226180;
       name := "Spitalul Municipal"; capacity := None |};
    {| id := "fallback_3"; type := fire; lat := 45.755800; lng := 21.228900;
       name := "Stație Pompieri Centru"; capacity := None |};
    {| id := "fallback_4"; type := pharmacy; lat := 45.753200; lng := 21.225600;
       name := "Farmacie Centrală"; capacity := None |};
    {| id := "fallback_5"; type := police; lat := 45.754100; lng := 21.226800;
       name := "Poliția Municipiului Timișoara"; capacity := None |} ].

(** ** The service *)

Section Service.

Variable env : Env.

(** *** AsyncStorage and axios *)

Definition getItem (key : string) : M (option string) :=
  fun w =>
    match getItem_fault env key with
    | Some e => (Throw e, w)
    | None => (Ok (storage w !! key), w)
    end.

Definition setItem (key value : string) : M unit :=
  fun w =>
    match setItem_fault env key with
    | Some e => (Throw e, w)
    | None => (Ok tt, stored (<[key := value]> (storage w)) w)
    end.

(** [axios.post(endpoint, ...)], resolved to [response.data]. *)
Definition axios_post (endpoint : string) : M ResponseData :=
  fun w => (post_outcome env endpoint, requested endpoint w).

(** *** Cache functions *)

Definition loadFromCache : M (option (list Shelter)) :=
  try_catch
    (items <- Promise_all (getItem STORAGE_KEY) (getItem STORAGE_TIMESTAMP_KEY);;
     let cachedData := items.1 in
     let timestampStr := items.2 in
     match cachedData with
     | None | Some EmptyString => console_log LogNoCache;; ret None
     | Some cachedData =>
         (match timestampStr with
          | None | Some EmptyString => ret tt
          | Some timestampStr =>
              t <- Date_now;;
              match ParseInt.parseInt timestampStr with
              | Some stamp =>
                  let cacheAge := t - stamp in
                  if CACHE_MAX_AGE <? cacheAge
                  then console_log (LogCacheExpired cacheAge)
                  else ret tt
              | None => ret tt
              end
          end);;
         shelters <- (fun w => (JSON_parse env cachedData, w));;
         console_log (LogLoaded (length shelters));;
         ret (Some shelters)
     end)
    (fun error => console_log (ErrLoadingCache error);; ret None).

Definition saveToCache (shelters : list Shelter) : M unit :=
  try_catch
    (Promise_all
       (setItem STORAGE_KEY (JSON_stringify env shelters))
       (t <- Date_now;; setItem STORAGE_TIMESTAMP_KEY (Js.Number_toString t));;
     console_log (LogSaved (length shelters)))
    (fun error => console_log (ErrSavingCache error)).

(** *** API functions *)

(** How the body of the [try] inside the loop ends: [continue], or
    [return shelters]. *)
Inductive Step : Set :=
  | Continue
  | Return (shelters : list Shelter).

Definition tryEndpoint (endpoint : string) : M Step :=
  console_log (LogTrying endpoint);;
  data <- axios_post endpoint;;
  match data with
  | NoElements => console_log (WarnInvalidResponse endpoint);; ret Continue
  | Elements elements =>
      console_log (LogSuccess (length elements) endpoint);;
      let shelters := omap transformToShelter elements in
      console_log (LogTransformed (length shelters));;
      ret (Return shelters)
  end.

(** [error instanceof Error ? error.message : fallback] *)
Definition message_or (fallback : string) (error : Thrown) : string :=
  match error with
  | ErrorObj message => message
  | NonError => fallback
  end.

(** The [for ... of] loop over the endpoints still to try, with the
    [lastError] of the iterations done, and the [throw] after it. *)
Fixpoint fetchLoop (endpoints : list string) (lastError : option Thrown) : M (list Shelter) :=
  match endpoints with
  | endpoint :: rest =>
      fun w =>
        match tryEndpoint endpoint w with
        | (Ok (Return shelters), w') => (Ok shelters, w')
        | (Ok Continue, w') => fetchLoop rest lastError w'
        | (Throw error, w') =>
            let errorMsg := message_or "Unknown error" error in
            (console_log (WarnEndpointFailed endpoint errorMsg);;
             fetchLoop rest (Some (ErrorObj errorMsg))) w'
        end
  | [] =>
      throw (default (ErrorObj "All Overpass API endpoints failed") lastError)
  end.

Definition fetchFromAPI : M (list Shelter) :=
  fetchLoop OVERPASS_ENDPOINTS None.

(** *** Main service functions *)

(** [cachedShelters && cachedShelters.length > 0] *)
Definition usable (cachedShelters : option (list Shelter)) : option (list Shelter) :=
  match cachedShelters with
  | Some (s :: l) => Some (s :: l)
  | _ => None
  end.

(** A [try] block of the two operations either returns a result from
    inside, [Some], or is left without one, [None]. *)
Definition getShelters : M ShelterServiceResult :=
  cachedShelters <-
    try_catch loadFromCache
      (fun error => console_log (ErrCacheLoad error);; ret None);;
  returned <-
    try_catch
      (apiShelters <- fetchFromAPI;;
       if (0 <? length apiShelters)%nat then
         saveToCache apiShelters;;
         ret (Some {| shelters := apiShelters; source := api; error := None |})
       else
         match usable cachedShelters with
         | Some cached =>
             ret (Some {| shelters := cached; source := cache;
                          error := Some "API returned empty results, using cached data" |})
         | None => ret None
         end)
      (fun apiError =>
         let errorMessage := message_or "Unknown API error" apiError in
         console_log (ErrApiFetch errorMessage);;
         match usable cachedShelters with
         | Some cached =>
             ret (Some {| shelters := cached; source := cache;
                          error := Some ("API unavailable: " +:+ errorMessage) |})
         | None => ret None
         end);;
  match returned with
  | Some result => ret result
  | None =>
      console_log WarnFallback;;
      ret {| shelters := FALLBACK_SHELTERS; source := fallback;
             error := Some "No network connection and no cached data available" |}
  end.

Definition refreshShelters : M ShelterServiceResult :=
  try_catch
    (apiShelters <- fetchFromAPI;;
     if (0 <? length apiShelters)%nat then
       saveToCache apiShelters;;
       ret {| shelters := apiShelters; source := api; error := None |}
     else
       cachedShelters <- loadFromCache;;
       match usable cachedShelters with
       | Some cached =>
           ret {| shelters := cached; source := cache;
                  error := Some "Refresh returned empty results" |}
       | None =>
           ret {| shelters := FALLBACK_SHELTERS; source := fallback;
                  error := Some "Refresh failed" |}
       end)
    (fun error =>
       let errorMessage := message_or "Unknown error" error in
       cachedShelters <- loadFromCache;;
       match usable cachedShelters with
       | Some cached =>
           ret {| shelters := cached; source := cache;
                  error := Some ("Refresh failed: " +:+ errorMessage) |}
       | None =>
           ret {| shelters := FALLBACK_SHELTERS; source := fallback;
                  error := Some ("Refresh failed: " +:+ errorMessage) |}
       end).

End Service.

(** ** The vocabulary of the properties *)

(** Only the console differs between [w] and [w']. *)
Definition quiet (w w' : World) : Prop :=
  storage w' = storage w /\ now w' = now w /\ requests w' = requests w.

Definition fallback_result (message : string) : ShelterServiceResult :=
  {| shelters := FALLBACK_SHELTERS; source := fallback; error := Some message |}.

Definition cache_result (cached : list Shelter) (message : string) : ShelterServiceResult :=
  {| shelters := cached; source := cache; error := Some message |}.

(** An endpoint fails when its request raises or when its response has no
    [elements] array. *)
Definition failed (env : Env) (endpoint : string) : Prop :=
  match post_outcome env endpoint with
  | Ok (Elements _) => False
  | Ok NoElements | Throw _ => True
  end.

(** The message of the error an endpoint raises, as the [catch] clause of
    the loop reads it; a response without [elements] raises nothing. *)
Definition raised (env : Env) (endpoint : string) : option string :=
  match post_outcome env endpoint with
  | Throw e => Some (message_or "Unknown error" e)
  | Ok _ => None
  end.

(** The words of the specification, "a structural validation error is
    treated identically to a transport error": the environment in which
    every response without [elements] is the transport error [e]
    instead. *)
Definition structural_as_transport (e : Thrown) (env : Env) : Env :=
  {| post_outcome := fun endpoint =>
       match post_outcome env endpoint with
       | Ok NoElements => Throw e
       | other => other
       end;
     getItem_fault := getItem_fault env;
     setItem_fault := setItem_fault env;
     JSON_stringify := JSON_stringify env;
     JSON_parse := JSON_parse env |}.

(** The store after [setItem key value]: unchanged when the write is
    rejected. *)
Definition written (env : Env) (key value : string) (m : gmap string string) : gmap string string :=
  match setItem_fault env key with
  | Some _ => m
  | None => <[key := value]> m
  end.





(** The engine's codec gives the list [s] back, from a text that is not
    the empty string. *)
Definition JSON_faithful (env : Env) (s : list Shelter) : Prop :=
  JSON_parse env (JSON_stringify env s) = Ok s /\
  JSON_stringify env s <> "".

(** ** Worlds and environments of the examples *)

Module Samples.

(** The codec of the examples writes a list as the ids of its records
    and reads back the texts listed in [readable]. *)
Definition ids_text (l : list Shelter) : string :=
  "[" +:+ String.concat "," (id <$> l) +:+ "]".

Definition read_back (readable : list (list Shelter)) (text : string) : Result (list Shelter) :=
  match List.find (fun l => String.eqb (ids_text l) text) readable with
  | Some l => Ok l
  | None => Throw (ErrorObj "JSON Parse error")
  end.

(** An environment from the answers of the three endpoints, the keys
    whose reads and writes are rejected, and the lists the codec reads. *)
Definition mock (answers : list (Result ResponseData)) (noRead noWrite : list string)
    (readable : list (list Shelter)) : Env :=
  {| post_outcome := fun endpoint =>
       default (Throw (ErrorObj "Network Error"))
         (snd <$> List.find (fun a => String.eqb a.1 endpoint)
                    (zip OVERPASS_ENDPOINTS answers));
     getItem_fault := fun key =>
       if bool_decide (key ∈ noRead) then Some (ErrorObj "read failed") else None;
     setItem_fault := fun key =>
       if bool_decide (key ∈ noWrite) then Some (ErrorObj "disk full") else None;
     JSON_stringify := ids_text;
     JSON_parse := read_back readable |}.

Definition emptyWorld (t : Z) : World :=
  {| storage := ∅; now := t; requests := []; console := [] |}.

Definition timeout : Result ResponseData := Throw (ErrorObj "timeout of 30000ms exceeded").

Definition pharmacy7 : OverpassElement :=
  {| el_type := node; el_id := 7; el_lat := Some 45.75%float; el_lon := Some 21.25%float;
     el_center := None;
     el_tags := Some {| tag_name := None; tag_amenity := Some "pharmacy";
                        tag_capacity := None |} |}.

Definition scenarioD : OverpassElement :=
  {| el_type := way; el_id := 42; el_lat := None; el_lon := None;
     el_center := Some {| center_lat := 45.1; center_lon := 21.2 |};
     el_tags := Some {| tag_name := Some "City Hospital";
                        tag_amenity := Some "hospital";
                        tag_capacity := None |} |}.

(** A way without its centroid, as a query without [out center] gives. *)
Definition bareWay : OverpassElement :=
  {| el_type := way; el_id := 9; el_lat := None; el_lon := None;
     el_center := None; el_tags := None |}.

(** The three endpoints of [OVERPASS_ENDPOINTS], by their comments. *)
Definition main_endpoint : string := "https://overpass-api.de/api/interpreter".
Definition fast_mirror : string := "https://lz4.overpass-api.de/api/interpreter".
Definition alternative_mirror : string := "https://overpass.kumi.systems/api/interpreter".

(** The main endpoint times out, the fast mirror answers with an empty
    [elements] array, the alternative mirror would have a pharmacy. *)
Definition second_answers_empty : Env :=
  mock [timeout; Ok (Elements []); Ok (Elements [pharmacy7])] [] [] [].

(** The main endpoint raises [message], the mirrors answer without an
    [elements] array. *)
Definition first_raises (message : string) : Env :=
  mock [Throw (ErrorObj message); Ok NoElements; Ok NoElements] [] [] [].

(** No endpoint answers: a timeout, a thrown value that is no [Error], a
    response without [elements]. *)
Definition none_answers : Env :=
  mock [timeout; Throw NonError; Ok NoElements] [] [] [].

(** What the normalizer makes of [scenarioD] and of [pharmacy7]. *)
Definition cityHospital : Shelter :=
  {| id := "osm_way_42"; type := hospital; lat := 45.1; lng := 21.2;
     name := "City Hospital"; capacity := None |}.

Definition pharmacy : Shelter :=
  {| id := "osm_node_7"; type := Types.pharmacy; lat := 45.75; lng := 21.25;
     name := "Pharmacy #7"; capacity := None |}.

(** A world whose cache holds [l], saved at time [stamp]; it is now [t]. *)
Definition cachedWorld (l : list Shelter) (stamp t : Z) : World :=
  {| storage := {[ STORAGE_KEY := ids_text l;
                   STORAGE_TIMESTAMP_KEY := Js.Number_toString stamp ]};
     now := t; requests := []; console := [] |}.

(** The main endpoint has a pharmacy; the store rejects every write. *)
Definition disk_full : Env :=
  mock [Ok (Elements [pharmacy7])] [] [STORAGE_KEY; STORAGE_TIMESTAMP_KEY] [].

(** The store works and the codec reads the lists of [readable]; no
    endpoint answers. *)
Definition offline (readable : list (list Shelter)) : Env :=
  mock [] [] [] readable.

(** The store works; every endpoint answers with an empty [elements]
    array. *)
Definition nothing_found (readable : list (list Shelter)) : Env :=
  mock [Ok (Elements []); Ok (Elements []); Ok (Elements [])] [] [] readable.

(** The store works; the main endpoint has a pharmacy, a way without
    coordinates and a hospital. *)
Definition online : Env :=
  mock [Ok (Elements [pharmacy7; bareWay; scenarioD])] [] [] [].

(** A node with the numeric id of [scenarioD]. *)
Definition node42 : OverpassElement :=
  {| el_type := node; el_id := 42; el_lat := Some 45.1%float;
     el_lon := Some 21.2%float; el_center := None; el_tags := None |}.




(** The store rejects the write of the list, which the codec can read. *)
Definition quota_exceeded : Env :=
  mock [] [] [STORAGE_KEY] [[pharmacy]].



End Samples.

(** * The rest of the application *)

(** ** The rest of the shelter service *)

(** [Math.round(a / d)] for integers [a] and [d > 0]: the nearest integer,
    a half rounding up. The quotient of the source is a binary64 number;
    the two agree while [a] stays below 2^52 in absolute value, as the
    difference of two times in milliseconds does. *)
Definition Math_round_div (a d : Z) : Z := (2 * a + d) / (2 * d).

(** [ageHours: number | null] *)
Inductive AgeHours : Set :=
  | AgeNull
  | AgeNaN
  | Age (hours : Z).

Record CacheInfo : Set := mkCacheInfo {
  cache_exists : bool;
  count : nat;
  ageHours : AgeHours;
}.

Definition getCacheInfo (env : Env) : M CacheInfo :=
  try_catch
    (items <- Promise_all (getItem env STORAGE_KEY) (getItem env STORAGE_TIMESTAMP_KEY);;
     let cachedData := items.1 in
     let timestampStr := items.2 in
     match cachedData with
     | None | Some EmptyString =>
         ret {| cache_exists := false; count := 0; ageHours := AgeNull |}
     | Some cachedData =>
         shelters <- (fun w => (JSON_parse env cachedData, w));;
         t <- Date_now;;
         let ageHours :=
           match timestampStr with
           | None | Some EmptyString => AgeNull
           | Some timestampStr =>
               match ParseInt.parseInt timestampStr with
               | Some stamp => Age (Math_round_div (t - stamp) 3600000)
               | None => AgeNaN
               end
           end in
         ret {| cache_exists := true; count := length shelters; ageHours := ageHours |}
     end)
    (fun _ => ret {| cache_exists := false; count := 0; ageHours := AgeNull |}).

Section ClearCache.

(** The keys whose removal AsyncStorage rejects, and with what. *)
Variable removeItem_fault : string -> option Thrown.

Definition removeItem (key : string) : M unit :=
  fun w =>
    match removeItem_fault key with
    | Some e => (Throw e, w)
    | None => (Ok tt, stored (delete key (storage w)) w)
    end.

Definition clearShelterCache : M unit :=
  try_catch
    (Promise_all (removeItem STORAGE_KEY) (removeItem STORAGE_TIMESTAMP_KEY);;
     console_log LogCacheCleared)
    (fun error => console_log (ErrClearingCache error)).

End ClearCache.

(** ** The application around the service *)

Module App.

(** What the rest of the application shows or does, besides the console
    lines of the service: the console lines of the screen and of the
    navigation helpers, the alerts, and the URLs handed to
    [Linking.openURL]. *)
Inductive Event : Set :=
  | LogScreenLoaded (count : nat) (source : Source)
  | ErrScreenLoading (e : Thrown)
  | Alert (title message : string)
  | Opened (url : string)
  | ErrOpening (appName : string) (e : Thrown).

(** The world of the service, and the events so far, oldest first. *)
Record State : Type := mkState {
  device : World;
  events : list Event;
}.

Definition Task (A : Type) : Type := State -> Result A * State.

Definition resolve {A} (a : A) : Task A := fun s => (Ok a, s).

Definition reject {A} (e : Thrown) : Task A := fun s => (Throw e, s).

Definition andThen {A B} (m : Task A) (k : A -> Task B) : Task B :=
  fun s =>
    match m s with
    | (Ok a, s') => k a s'
    | (Throw e, s') => (Throw e, s')
    end.

Definition attempt {A} (body : Task A) (handler : Thrown -> Task A) : Task A :=
  fun s =>
    match body s with
    | (Ok a, s') => (Ok a, s')
    | (Throw e, s') => handler e s'
    end.

(** A function of the service, run on the device. *)
Definition service {A} (m : M A) : Task A :=
  fun s =>
    let (r, w) := m (device s) in
    (r, {| device := w; events := events s |}).

Definition emit (e : Event) : Task unit :=
  fun s => (Ok tt, {| device := device s; events := events s ++ [e] |}).

End App.
Export App.

Notation "x <~ m ;; k" := (andThen m (fun x => k))
  (at level 100, m at next level, right associativity) : js_scope.
Notation "m ;;; k" := (andThen m (fun _ => k))
  (at level 100, right associativity) : js_scope.


(** ** The map screen: what it does with the service *)

#[global] Instance ShelterType_eq_dec : EqDecision ShelterType.
Proof. solve_decision. Defined.

#[global] Instance ShelterType_countable : Countable ShelterType.
Proof.
  refine (inj_countable'
            (fun t => match t with
                      | hospital => 0 | pharmacy => 1 | fire => 2
                      | police => 3 | bunker => 4 | unknown => 5
                      end%nat)
            (fun n => match n with
                      | 0 => hospital | 1 => pharmacy | 2 => fire
                      | 3 => police | 4 => bunker | _ => unknown
                      end%nat) _).
  by intros [].
Defined.

Module MapScreen.

(** The state of the screen that the service feeds. *)
Record Screen : Type := mkScreen {
  shelters : list Shelter;
  sheltersLoading : bool;
  sheltersSource : option Source;
  sheltersError : option string;
  activeFilters : gset ShelterType;
}.

(** The five types of the filter menu, [allTypes] in the source. *)
Definition allTypes : list ShelterType := [hospital; pharmacy; fire; police; bunker].

(** The values given to [useState]. *)
Definition initial : Screen :=
  {| shelters := []; sheltersLoading := true; sheltersSource := None;
     sheltersError := None; activeFilters := list_to_set allTypes |}.

Definition setSheltersLoading (b : bool) (st : Screen) : Screen :=
  {| shelters := shelters st; sheltersLoading := b; sheltersSource := sheltersSource st;
     sheltersError := sheltersError st; activeFilters := activeFilters st |}.

Definition setSheltersError (e : option string) (st : Screen) : Screen :=
  {| shelters := shelters st; sheltersLoading := sheltersLoading st;
     sheltersSource := sheltersSource st;
     sheltersError := e; activeFilters := activeFilters st |}.

Definition setActiveFilters (f : gset ShelterType) (st : Screen) : Screen :=
  {| shelters := shelters st; sheltersLoading := sheltersLoading st;
     sheltersSource := sheltersSource st;
     sheltersError := sheltersError st; activeFilters := f |}.

(** [result.error || null] *)
Definition or_null (e : option string) : option string :=
  match e with
  | Some message => if Js.truthy message then Some message else None
  | None => None
  end.

(** The three setters called with a result of the service. *)
Definition setResult (result : ShelterServiceResult) (st : Screen) : Screen :=
  {| shelters := Types.shelters result; sheltersLoading := sheltersLoading st;
     sheltersSource := Some (source result);
     sheltersError := or_null (error result); activeFilters := activeFilters st |}.

Definition filteredShelters (st : Screen) : list Shelter :=
  filter (fun shelter => type shelter ∈ activeFilters st) (shelters st).

Definition toggleFilter (type : ShelterType) (prev : gset ShelterType) : gset ShelterType :=
  if decide (type ∈ prev) then
    if decide (1 < size prev)%nat then prev ∖ {[ type ]} else prev
  else prev ∪ {[ type ]}.

Definition toggleAllFilters (activeFilters : gset ShelterType) : gset ShelterType :=
  if decide (size activeFilters = length allTypes) then {[ hospital ]}
  else list_to_set allTypes.

(** What a tap in the filter menu does: one of its five rows, or the
    link in its header. *)
Inductive Tap : Set :=
  | TapRow (type : ShelterType)
  | TapAll.

Definition tap (t : Tap) (st : Screen) : Screen :=
  match t with
  | TapRow type => setActiveFilters (toggleFilter type (activeFilters st)) st
  | TapAll => setActiveFilters (toggleAllFilters (activeFilters st)) st
  end.

(** A row of the menu carries one of the five types. *)
Definition menu_tap (t : Tap) : Prop :=
  match t with
  | TapRow type => type ∈ allTypes
  | TapAll => True
  end.

Section Handlers.

Variable env : Env.

(** The effect run when the screen mounts; [isMounted] is the flag when
    [getShelters] resolves. *)
Definition loadShelters (isMounted : bool) (st : Screen) : Task Screen :=
  let st := setSheltersLoading true st in
  st <~ attempt
          (result <~ service (getShelters env);;
           if negb isMounted then resolve st
           else
             let st := setResult result st in
             emit (LogScreenLoaded (length (Types.shelters result)) (source result));;;
             resolve st)
          (fun error =>
             if negb isMounted then resolve st
             else
               emit (ErrScreenLoading error);;;
               resolve (setSheltersError (Some "Eroare la încărcarea locațiilor") st));;
  resolve (if isMounted then setSheltersLoading false st else st).

Definition handleRefreshShelters (st : Screen) : Task Screen :=
  let st := setSheltersLoading true st in
  st <~ attempt
          (result <~ service (refreshShelters env);;
           let st := setResult result st in
           match source result, or_null (error result) with
           | api, _ =>
               emit (Alert "Succes"
                       ("Datele au fost actualizate. "
                        +:+ Js.Number_toString (Z.of_nat (length (Types.shelters result)))
                        +:+ " locații găsite."));;;
               resolve st
           | _, Some message => emit (Alert "Atenție" message);;; resolve st
           | _, None => resolve st
           end)
          (fun error =>
             emit (Alert "Eroare" "Nu s-au putut actualiza datele.");;;
             resolve st);;
  resolve (setSheltersLoading false st).

End Handlers.

End MapScreen.

(** ** Retrieval of knowledge entries (src/utils/rag.ts) *)

Module Rag.

Record KnowledgeEntry : Set := mkEntry {
  id : string;
  tag : string;
  pattern : string;
  response : string;
  embedding : list float;
}.

(** An entry with its similarity to the query. *)
Record Scored : Set := mkScored {
  entry : KnowledgeEntry;
  score : float;
}.

(** The three sums of the loop, after the components in [pairs]. *)
Definition sums (pairs : list (float * float)) : float * float * float :=
  fold_left
    (fun acc p =>
       let '(dotProduct, normA, normB) := acc in
       (dotProduct + p.1 * p.2, normA + p.1 * p.1, normB + p.2 * p.2)%float)
    pairs (0, 0, 0)%float.

Definition cosineSimilarity (a b : list float) : Result float :=
  if negb (length a =? length b)%nat then
    Throw (ErrorObj "Vectors must have the same length")
  else
    let '(dotProduct, normA, normB) := sums (zip a b) in
    let denominator := (sqrt normA * sqrt normB)%float in
    if (denominator =? 0)%float then Ok 0%float
    else Ok (dotProduct / denominator)%float.

(** [array.map(f)] for an [f] that may throw: the first throw ends it. *)
Fixpoint map_throwing {A B} (f : A -> Result B) (l : list A) : Result (list B) :=
  match l with
  | [] => Ok []
  | x :: rest =>
      match f x with
      | Throw e => Throw e
      | Ok y =>
          match map_throwing f rest with
          | Throw e => Throw e
          | Ok ys => Ok (y :: ys)
          end
      end
  end.

(** [Array.prototype.sort(comparefn)] is a stable sort: [x], which comes
    after the elements of the sorted [l], goes before the first of them
    that [comparefn] puts after it (a positive result), and a result that
    is zero or NaN keeps the order. *)
Fixpoint insert {A} (comparefn : A -> A -> float) (x : A) (l : list A) : list A :=
  match l with
  | [] => [x]
  | y :: rest =>
      if (0 <? comparefn y x)%float then x :: y :: rest
      else y :: insert comparefn x rest
  end.

Definition Array_sort {A} (comparefn : A -> A -> float) (l : list A) : list A :=
  fold_left (fun sorted x => insert comparefn x sorted) l [].

(** [array.slice(0, end)] for an integer [end]: a negative [end] counts
    from the end of the array. *)
Definition Array_slice0 {A} (end_ : Z) (l : list A) : list A :=
  let len := Z.of_nat (length l) in
  take (Z.to_nat (if end_ <? 0 then Z.max (len + end_) 0 else Z.min end_ len)) l.

Definition retrieveRelevantContext
    (queryEmbedding : list float) (knowledgeBase : list KnowledgeEntry)
    (topK : Z) (threshold : float) : Result (list Scored) :=
  match map_throwing
          (fun entry =>
             match cosineSimilarity queryEmbedding (embedding entry) with
             | Ok score => Ok {| entry := entry; score := score |}
             | Throw e => Throw e
             end)
          knowledgeBase with
  | Throw e => Throw e
  | Ok scoredEntries =>
      let filteredAndSorted :=
        Array_sort (fun a b => (score b - score a)%float)
          (filter (fun item => (threshold <=? score item)%float = true) scoredEntries) in
      Ok (Array_slice0 topK filteredAndSorted)
  end.

(** The default values of [topK] and [threshold]. *)
Definition default_topK : Z := 3.
Definition default_threshold : float := 0.3%float.

(** [Map.prototype.has] and [set] on the entries of a [Map], kept in the
    order of insertion. *)
Definition Map_has {V} (key : string) (m : list (string * V)) : bool :=
  existsb (fun kv => String.eqb kv.1 key) m.

Definition Map_set {V} (key : string) (v : V) (m : list (string * V)) : list (string * V) :=
  if Map_has key m
  then (fun kv => if String.eqb kv.1 key then (key, v) else kv) <$> m
  else m ++ [(key, v)].

Definition uniqueAnswers (retrievedEntries : list Scored) : list (string * Scored) :=
  fold_left
    (fun m item =>
       let responseText := response (entry item) in
       if negb (Map_has responseText m) then Map_set responseText item m else m)
    retrievedEntries [].

Definition newline : string := String (ascii_of_nat 10) EmptyString.

Definition contextTexts (retrievedEntries : list Scored) : list string :=
  (fun item => response (entry item)) <$> (snd <$> uniqueAnswers retrievedEntries).

Definition formatContextForPrompt (retrievedEntries : list Scored) : string :=
  match retrievedEntries with
  | [] => ""
  | _ => String.concat (newline +:+ newline) (contextTexts retrievedEntries)
  end.

End Rag.

(** ** Navigation hand-off (src/utils/navigation.ts) *)

Module Navigation.

Inductive Mode : Set := driving | walking.

(** [Platform.OS] *)
Inductive OS : Set := android | ios | otherOS.

Record NavigationDestination : Set := mkDestination {
  lat : float;
  lng : float;
  label : option string;
}.

Record NavigationApp : Type := mkNavigationApp {
  name : string;
  icon : string;
  getUrl : NavigationDestination -> Mode -> string;
}.

Definition Mode_string (mode : Mode) : string :=
  match mode with driving => "driving" | walking => "walking" end.

(** [formatTravelTime], for a whole number of minutes, which is what
    [estimateTravelTime] rounds to. *)
Definition formatTravelTime (minutes : Z) : string :=
  if minutes <? 60 then Js.Number_toString minutes +:+ " min"
  else
    let hours := minutes / 60 in
    let mins := minutes mod 60 in
    if 0 <? mins
    then Js.Number_toString hours +:+ " h " +:+ Js.Number_toString mins +:+ " min"
    else Js.Number_toString hours +:+ " h".

Section Linking.

Variable platform : OS.

(** How a template literal prints a coordinate. *)
Variable Number_toString : float -> string.

(** [Linking.canOpenURL] and the URLs [Linking.openURL] rejects. *)
Variable Linking_canOpenURL : string -> Result bool.
Variable Linking_openURL_fault : string -> option Thrown.

(** [`${dest.lat},${dest.lng}`] *)
Definition latlng (la lo : float) : string :=
  Number_toString la +:+ "," +:+ Number_toString lo.

Definition googleMaps : NavigationApp :=
  {| name := "Google Maps";
     icon := "🗺️";
     getUrl := fun dest mode =>
       let travelMode := Mode_string mode in
       match platform with
       | android =>
           "google.navigation:q=" +:+ latlng (lat dest) (lng dest) +:+ "&mode="
             +:+ match mode with walking => "w" | driving => "d" end
       | _ =>
           "https://www.google.com/maps/dir/?api=1&destination="
             +:+ latlng (lat dest) (lng dest) +:+ "&travelmode=" +:+ travelMode
       end |}.

Definition waze : NavigationApp :=
  {| name := "Waze";
     icon := "🚗";
     getUrl := fun dest _ =>
       "https://waze.com/ul?ll=" +:+ latlng (lat dest) (lng dest) +:+ "&navigate=yes" |}.

Definition appleMaps : NavigationApp :=
  {| name := "Apple Maps";
     icon := "🍎";
     getUrl := fun dest mode =>
       "maps://app?daddr=" +:+ latlng (lat dest) (lng dest) +:+ "&dirflg="
         +:+ match mode with driving => "d" | walking => "w" end |}.

Definition navigationApps : list NavigationApp :=
  [googleMaps; waze] ++ match platform with ios => [appleMaps] | _ => [] end.

Definition canOpenURL (url : string) : Task bool :=
  fun s => (Linking_canOpenURL url, s).

Definition openURL (url : string) : Task unit :=
  fun s =>
    match Linking_openURL_fault url with
    | Some e => (Throw e, s)
    | None => emit (Opened url) s
    end.

Definition canOpenUrl (url : string) : Task bool :=
  attempt (canOpenURL url) (fun _ => resolve false).

Definition openNavigation (app : NavigationApp) (destination : NavigationDestination)
    (mode : Mode) : Task bool :=
  let url := getUrl app destination mode in
  attempt
    (canOpen <~ canOpenUrl url;;
     if negb canOpen then
       if String.eqb (name app) "Google Maps" then
         let webUrl :=
           "https://www.google.com/maps/dir/?api=1&destination="
             +:+ latlng (lat destination) (lng destination)
             +:+ "&travelmode=" +:+ Mode_string mode in
         openURL webUrl;;; resolve true
       else resolve false
     else
       openURL url;;; resolve true)
    (fun error => emit (ErrOpening (name app) error);;; resolve false).

Definition quickNavigate (destination : NavigationDestination) (mode : Mode) : Task bool :=
  match List.find (fun app => String.eqb (name app) "Google Maps") navigationApps with
  | Some googleMaps => openNavigation googleMaps destination mode
  | None => resolve false
  end.

End Linking.

End Navigation.

(** ** The vocabulary of the properties of the rest *)

(** No character of [s] is a space. *)
Definition nospace (s : string) : Prop :=
  forall c, In c (list_ascii_of_string s) -> c <> " "%char.

(** The web address [openNavigation] falls back to for Google Maps. *)
Definition webUrl (Number_toString : float -> string)
    (destination : Navigation.NavigationDestination) (mode : Navigation.Mode) : string :=
  "https://www.google.com/maps/dir/?api=1&destination="
    +:+ Navigation.latlng Number_toString
          (Navigation.lat destination) (Navigation.lng destination)
    +:+ "&travelmode=" +:+ Navigation.Mode_string mode.

(** [texts] lists the members of [l], each once, in the order in which
    they first occur in [l]: when [a] stands before [b] in [texts], [a]
    occurs in [l] at a place before which, and at which, there is no
    [b]. *)
Definition first_occurrences (l texts : list string) : Prop :=
  NoDup texts /\
  (forall text, text ∈ texts <-> text ∈ l) /\
  (forall (i j : nat) a b,
     (i < j)%nat -> texts !! i = Some a -> texts !! j = Some b ->
     exists k : nat,
       l !! k = Some a /\ forall k' : nat, (k' <= k)%nat -> l !! k' <> Some b).

(** ** More examples *)

Module MoreSamples.

(** A record of a type the filter menu has no row for. *)
Definition mystery : Shelter :=
  {| id := "osm_node_3"; type := unknown; lat := 45.7; lng := 21.2;
     name := "Unknown #3"; capacity := None |}.

(** The screen after a load that returned a hospital and [mystery]. *)
Definition loaded : MapScreen.Screen :=
  MapScreen.setSheltersLoading false
    (MapScreen.setResult
       {| shelters := [Samples.cityHospital; mystery]; source := api; error := None |}
       MapScreen.initial).

(** The application before anything happened, on a device. *)
Definition fresh (w : World) : State := {| device := w; events := [] |}.

(** A knowledge base of five entries with embeddings of dimension 2; the
    first and the third give the same answer. *)
Definition knowledge (i r : string) (v : list float) : Rag.KnowledgeEntry :=
  {| Rag.id := i; Rag.tag := "t"; Rag.pattern := "p"; Rag.response := r;
     Rag.embedding := v |}.

Definition knowledgeBase : list Rag.KnowledgeEntry :=
  [ knowledge "a" "Apply pressure." [1; 0]%float;
    knowledge "b" "Call 112." [0; 1]%float;
    knowledge "c" "Apply pressure." [1; 1]%float;
    knowledge "d" "Keep warm." [2; 1]%float;
    knowledge "e" "Stay calm." [1; 0.5]%float ].

End MoreSamples.

(** * Properties *)

(** ** What the awaited steps leave untouched *)

Lemma quiet_refl w : quiet w w.
Proof. by unfold quiet. Qed.

Lemma quiet_logged entry w w' : quiet w w' -> quiet w (logged entry w').
Proof. by unfold quiet. Qed.

Create HintDb safr.
#[local] Hint Resolve quiet_refl quiet_logged : safr.

Ltac run :=
  unfold bind, try_catch, Promise_all, ret, throw, console_log, Date_now; simpl.

Section Cache.

Variable env : Env.

(** [loadFromCache] resolves, whatever the store and the codec do, and
    writes to the console only. *)
Lemma loadFromCache_resolves w :
  exists c w', loadFromCache env w = (Ok c, w') /\ quiet w w'.
Proof.
  unfold loadFromCache, getItem. run.
  repeat (case_match; simplify_eq/=; run); eauto 10 with safr.
Qed.

(** What [loadFromCache] returns depends on the store only. *)
Lemma loadFromCache_result w w0 :
  storage w = storage w0 ->
  (loadFromCache env w).1 = (loadFromCache env w0).1.
Proof.
  intros Hs. unfold loadFromCache, getItem. run. rewrite Hs.
  by repeat (case_match; simplify_eq/=; run).
Qed.

(** [saveToCache] resolves too, and attempts both writes. *)
Lemma saveToCache_resolves shelters w :
  exists w', saveToCache env shelters w = (Ok tt, w') /\
    now w' = now w /\ requests w' = requests w /\
    storage w' =
      written env STORAGE_TIMESTAMP_KEY (Js.Number_toString (now w))
        (written env STORAGE_KEY (JSON_stringify env shelters) (storage w)).
Proof.
  unfold saveToCache, setItem, written. run.
  repeat (case_match; simplify_eq/=; run); eauto 10.
Qed.

(** One iteration of the loop posts to its endpoint and to no other. *)
Lemma tryEndpoint_requests endpoint w :
  storage (tryEndpoint env endpoint w).2 = storage w /\
  now (tryEndpoint env endpoint w).2 = now w /\
  requests (tryEndpoint env endpoint w).2 = (requests w ++ [endpoint])%list.
Proof.
  unfold tryEndpoint, axios_post. run.
  by repeat (case_match; simplify_eq/=).
Qed.

(** What an iteration returns depends on the endpoint's answer only. *)
Lemma tryEndpoint_result endpoint w :
  (tryEndpoint env endpoint w).1 =
  match post_outcome env endpoint with
  | Ok NoElements => Ok Continue
  | Ok (Elements elements) => Ok (Return (omap transformToShelter elements))
  | Throw e => Throw e
  end.
Proof.
  unfold tryEndpoint, axios_post. run.
  by repeat (case_match; simplify_eq/=).
Qed.

Lemma fetchLoop_frame endpoints lastError w :
  storage (fetchLoop env endpoints lastError w).2 = storage w /\
  now (fetchLoop env endpoints lastError w).2 = now w.
Proof.
  revert lastError w.
  induction endpoints as [|endpoint rest IH]; intros lastError w; [done|].
  simpl. destruct (tryEndpoint_requests endpoint w) as (Hs & Hn & _).
  destruct (tryEndpoint env endpoint w) as [[[|shelters]|e] w1]; simpl in *.
  - destruct (IH lastError w1) as [-> ->]. done.
  - done.
  - run. destruct (IH (Some (ErrorObj (message_or "Unknown error" e))) (logged (WarnEndpointFailed endpoint (message_or "Unknown error" e)) w1)) as [-> ->].
    done.
Qed.

(** The outcome of the fetch does not depend on the world it starts in. *)
Lemma fetchLoop_result endpoints lastError w w0 :
  (fetchLoop env endpoints lastError w).1 = (fetchLoop env endpoints lastError w0).1.
Proof.
  revert lastError w w0.
  induction endpoints as [|endpoint rest IH]; intros lastError w w0; [done|].
  simpl. pose proof (tryEndpoint_result endpoint w) as H.
  pose proof (tryEndpoint_result endpoint w0) as H0.
  destruct (tryEndpoint env endpoint w) as [r w1],
           (tryEndpoint env endpoint w0) as [r0 w2]; simpl in *.
  rewrite H, H0. destruct (post_outcome env endpoint) as [[|elements]|e]; [by apply IH|done|].
  run. apply IH.
Qed.

End Cache.

(** ** The decision of the two operations, case by case *)

Section Orchestrator.

Variable env : Env.

(** [getShelters] resolves to the fetched list when it has a record, else
    to the cached list when it has one, else to the fallback; the store is
    written in the first case only.  [c] is what [loadFromCache] gave at
    the start. *)
Lemma getShelters_cases w :
  exists c w1 w',
    loadFromCache env w = (Ok c, w1) /\ now w' = now w /\
    match (fetchFromAPI env w).1 with
    | Ok [] =>
        storage w' = storage w /\
        getShelters env w =
          (Ok (match usable c with
               | Some cached =>
                   cache_result cached "API returned empty results, using cached data"
               | None =>
                   fallback_result "No network connection and no cached data available"
               end), w')
    | Ok apiShelters =>
        storage w' =
          written env STORAGE_TIMESTAMP_KEY (Js.Number_toString (now w))
            (written env STORAGE_KEY (JSON_stringify env apiShelters) (storage w)) /\
        getShelters env w =
          (Ok {| shelters := apiShelters; source := api; error := None |}, w')
    | Throw e =>
        storage w' = storage w /\
        getShelters env w =
          (Ok (match usable c with
               | Some cached =>
                   cache_result cached
                     ("API unavailable: " +:+ message_or "Unknown API error" e)
               | None =>
                   fallback_result "No network connection and no cached data available"
               end), w')
    end.
Proof.
  destruct (loadFromCache_resolves env w) as (c & w1 & Hload & Hs & Hn & _).
  exists c, w1. unfold getShelters. run. rewrite Hload.
  unfold fetchFromAPI.
  rewrite (fetchLoop_result env OVERPASS_ENDPOINTS None w w1).
  destruct (fetchLoop_frame env OVERPASS_ENDPOINTS None w1) as [Hs2 Hn2].
  destruct (fetchLoop env OVERPASS_ENDPOINTS None w1) as [[[|s l]|e] w2]; simpl in *.
  - destruct (usable c); run; eexists; (split; [done|]);
      (split; [|split; [|reflexivity]]); simpl; congruence.
  - destruct (saveToCache_resolves env (s :: l) w2) as (w3 & -> & Hn3 & _ & Hs3).
    exists w3. rewrite Hs3, Hs2, Hn2, Hs, Hn. repeat split; congruence.
  - destruct (usable c); run; eexists; (split; [done|]);
      (split; [|split; [|reflexivity]]); simpl; congruence.
Qed.

(** [refreshShelters] decides the same way, with its own diagnostics and
    with a cache read after the fetch; [c] is what [loadFromCache] gives
    on the store the operation starts with. *)
Lemma refreshShelters_cases w :
  exists c w',
    (loadFromCache env w).1 = Ok c /\ now w' = now w /\
    match (fetchFromAPI env w).1 with
    | Ok [] =>
        storage w' = storage w /\
        refreshShelters env w =
          (Ok (match usable c with
               | Some cached => cache_result cached "Refresh returned empty results"
               | None => fallback_result "Refresh failed"
               end), w')
    | Ok apiShelters =>
        storage w' =
          written env STORAGE_TIMESTAMP_KEY (Js.Number_toString (now w))
            (written env STORAGE_KEY (JSON_stringify env apiShelters) (storage w)) /\
        refreshShelters env w =
          (Ok {| shelters := apiShelters; source := api; error := None |}, w')
    | Throw e =>
        storage w' = storage w /\
        refreshShelters env w =
          (Ok (let message := "Refresh failed: " +:+ message_or "Unknown error" e in
               match usable c with
               | Some cached => cache_result cached message
               | None => fallback_result message
               end), w')
    end.
Proof.
  destruct (loadFromCache_resolves env w) as (c & w0 & Hload & _).
  exists c. unfold refreshShelters, fetchFromAPI, bind, try_catch.
  destruct (fetchLoop_frame env OVERPASS_ENDPOINTS None w) as [Hs Hn].
  destruct (fetchLoop env OVERPASS_ENDPOINTS None w) as [[[|s l]|e] w1]; simpl in *.
  - destruct (loadFromCache_resolves env w1) as (c1 & w2 & Hload1 & Hs1 & Hn1 & _).
    pose proof (loadFromCache_result env w1 w Hs) as Hsame.
    rewrite Hload, Hload1 in *. simpl in Hsame. simplify_eq.
    destruct (usable c); run; eexists; (split; [done|]);
      (split; [|split; [|reflexivity]]); simpl; congruence.
  - destruct (saveToCache_resolves env (s :: l) w1) as (w3 & -> & Hn3 & _ & Hs3).
    exists w3. rewrite Hload, Hs3, Hs, Hn. repeat split; congruence.
  - destruct (loadFromCache_resolves env w1) as (c1 & w2 & Hload1 & Hs1 & Hn1 & _).
    pose proof (loadFromCache_result env w1 w Hs) as Hsame.
    rewrite Hload, Hload1 in *. simpl in Hsame. simplify_eq.
    destruct (usable c); run; eexists; (split; [done|]);
      (split; [|split; [|reflexivity]]); simpl; congruence.
Qed.

End Orchestrator.

(** ** The two public operations *)

(** C1. Whatever the store holds and whatever the fetch does,
    [getShelters] resolves to a result with at least one shelter: tagged
    [api] it is the fetched list, tagged [cache] it is the list read from
    the cache at the start, tagged [fallback] it is [FALLBACK_SHELTERS]. *)
Theorem getShelters_never_empty (env : Env) (w : World) :
  exists r w',
    getShelters env w = (Ok r, w') /\
    shelters r <> [] /\
    match source r with
    | api => (fetchFromAPI env w).1 = Ok (shelters r)
    | cache => (loadFromCache env w).1 = Ok (Some (shelters r))
    | fallback => shelters r = FALLBACK_SHELTERS
    end.
Proof.
  destruct (getShelters_cases env w) as (c & w1 & w' & Hload & _ & H).
  rewrite Hload. simpl.
  destruct (fetchFromAPI env w).1 as [[|s l]|e]; destruct H as [_ ->].
  all: try destruct c as [[|s0 l0]|]; simpl.
  all: do 2 eexists; (split; [reflexivity|]); by simpl.
Qed.

(** C2. [getShelters] and [refreshShelters] never throw: for every
    environment, that is for every outcome of the cache reads, of the cache
    writes and of the three requests, each resolves to a result, tagged
    [api], [cache] or [fallback]. *)
Theorem operations_never_throw (env : Env) (w : World) :
  (exists r w', getShelters env w = (Ok r, w') /\
     (source r = api \/ source r = cache \/ source r = fallback)) /\
  (exists r w', refreshShelters env w = (Ok r, w') /\
     (source r = api \/ source r = cache \/ source r = fallback)).
Proof.
  split.
  - destruct (getShelters_cases env w) as (c & w1 & w' & _ & _ & H).
    destruct (fetchFromAPI env w).1 as [[|s l]|e]; destruct H as [_ ->];
      do 2 eexists; (split; [reflexivity|]); destruct (usable c); simpl; auto.
  - destruct (refreshShelters_cases env w) as (c & w' & _ & _ & H).
    destruct (fetchFromAPI env w).1 as [[|s l]|e]; destruct H as [_ ->];
      do 2 eexists; (split; [reflexivity|]); destruct (usable c); simpl; auto.
Qed.

(** C9. The result of either operation carries a diagnostic exactly when
    it is not tagged [api], and a diagnostic is never the empty string. *)
Theorem diagnostic_iff_not_api (env : Env) (w : World) :
  (exists r w', getShelters env w = (Ok r, w') /\
     (error r = None <-> source r = api) /\
     (forall message, error r = Some message -> message <> "")) /\
  (exists r w', refreshShelters env w = (Ok r, w') /\
     (error r = None <-> source r = api) /\
     (forall message, error r = Some message -> message <> "")).
Proof.
  split.
  - destruct (getShelters_cases env w) as (c & w1 & w' & _ & _ & H).
    destruct (fetchFromAPI env w).1 as [[|s l]|e]; destruct H as [_ ->];
      do 2 eexists; (split; [reflexivity|]); destruct (usable c); simpl;
      (split; [split|]); try done; intros; by simplify_eq.
  - destruct (refreshShelters_cases env w) as (c & w' & _ & _ & H).
    destruct (fetchFromAPI env w).1 as [[|s l]|e]; destruct H as [_ ->];
      do 2 eexists; (split; [reflexivity|]); destruct (usable c); simpl;
      (split; [split|]); try done; intros; by simplify_eq.
Qed.

(** Scenario A of the specification: nothing cached, no endpoint
    answers. *)
Example scenario_A :
  exists w',
    getShelters (Samples.mock [Samples.timeout; Samples.timeout; Samples.timeout] [] [] [])
      (Samples.emptyWorld 1000) =
      (Ok {| shelters := FALLBACK_SHELTERS; source := fallback;
             error := Some "No network connection and no cached data available" |}, w') /\
    length FALLBACK_SHELTERS = 5%nat /\
    requests w' = OVERPASS_ENDPOINTS.
Proof. eexists. split; [vm_compute; reflexivity|]. by vm_compute. Qed.

(** Scenario C: a list is cached and the endpoints answer with empty
    arrays; the first answer ends the fetch. *)
Example scenario_C :
  exists w',
    getShelters (Samples.nothing_found [[Samples.cityHospital]])
      (Samples.cachedWorld [Samples.cityHospital] 5 1000) =
      (Ok {| shelters := [Samples.cityHospital]; source := cache;
             error := Some "API returned empty results, using cached data" |}, w') /\
    requests w' = [Samples.main_endpoint].
Proof. eexists. split; [vm_compute; reflexivity|]. by vm_compute. Qed.

(** ** Numbers and their decimal text *)

Lemma digits_string_of_uint d :
  ParseInt.digits (NilEmpty.string_of_uint d) = NilEmpty.string_of_uint d.
Proof. induction d; simpl; by f_equal. Qed.

Lemma unsigned_string_of_uint d :
  d <> Decimal.Nil ->
  ParseInt.unsigned (NilEmpty.string_of_uint d) = Some (Z.of_N (N.of_uint d)).
Proof.
  intros Hd. unfold ParseInt.unsigned. rewrite digits_string_of_uint.
  destruct (NilEmpty.string_of_uint d) as [|c rest] eqn:E; [by destruct d|].
  rewrite <- E. by rewrite NilEmpty.usu.
Qed.

Lemma parseInt_string_of_uint d :
  d <> Decimal.Nil ->
  ParseInt.parseInt (NilEmpty.string_of_uint d) = Some (Z.of_N (N.of_uint d)).
Proof.
  intros Hd. rewrite <- (unsigned_string_of_uint d Hd).
  by destruct d.
Qed.

Lemma parseInt_Number_toString (t : Z) :
  ParseInt.parseInt (Js.Number_toString t) = Some t.
Proof.
  unfold Js.Number_toString. destruct t as [|p|p]; [done| |]; simpl.
  - pose proof (Unsigned.to_uint_nonnil p) as Hp.
    replace (NilZero.string_of_uint (Pos.to_uint p)) with (NilEmpty.string_of_uint (Pos.to_uint p))
      by (by destruct (Pos.to_uint p)).
    rewrite parseInt_string_of_uint by done.
    unfold N.of_uint. by rewrite Unsigned.of_to.
  - pose proof (Unsigned.to_uint_nonnil p) as Hp.
    replace (NilZero.string_of_uint (Pos.to_uint p)) with (NilEmpty.string_of_uint (Pos.to_uint p))
      by (by destruct (Pos.to_uint p)).
    unfold ParseInt.parseInt. simpl.
    rewrite unsigned_string_of_uint by done.
    unfold N.of_uint. by rewrite Unsigned.of_to.
Qed.

Lemma Number_toString_inj a b : Js.Number_toString a = Js.Number_toString b -> a = b.
Proof.
  intros H. apply (f_equal ParseInt.parseInt) in H.
  rewrite !parseInt_Number_toString in H. congruence.
Qed.

(** ** The normalizer *)

(** C6. The element of scenario D becomes the record ["osm_way_42"], a
    hospital at (45.1, 21.2) named "City Hospital", without capacity.  The
    id of a record is ["osm_<type>_<id>"] of its element, so two records
    have the same id exactly when their elements have the same type and
    the same numeric id: a node and a way never collide, and an element
    seen again gets the id it had. *)
Theorem transformToShelter_id :
  transformToShelter Samples.scenarioD =
    Some {| id := "osm_way_42"; type := hospital; lat := 45.1; lng := 21.2;
            name := "City Hospital"; capacity := None |} /\
  (forall e r,
     transformToShelter e = Some r ->
     id r = "osm_" +:+ ElementType_string (el_type e) +:+ "_"
              +:+ Js.Number_toString (el_id e)) /\
  (forall e1 e2 r1 r2,
     transformToShelter e1 = Some r1 ->
     transformToShelter e2 = Some r2 ->
     (id r1 = id r2 <-> el_type e1 = el_type e2 /\ el_id e1 = el_id e2)).
Proof.
  assert (Hid : forall e r, transformToShelter e = Some r ->
            id r = "osm_" +:+ ElementType_string (el_type e) +:+ "_"
                     +:+ Js.Number_toString (el_id e)).
  { intros e r. unfold transformToShelter.
    destruct (extractCoordinates e); [|done]. by intros [= <-]. }
  split; [reflexivity|]. split; [exact Hid|].
  intros e1 e2 r1 r2 H1 H2. rewrite (Hid _ _ H1), (Hid _ _ H2). split.
  - destruct (el_type e1), (el_type e2); simpl; intros [= H]; try done;
      by apply Number_toString_inj in H.
  - by intros [-> ->].
Qed.

(** A node and a way that share the numeric id 42. *)
Lemma node_42_and_way_42_do_not_collide :
  exists r1 r2,
    transformToShelter Samples.node42 = Some r1 /\
    transformToShelter Samples.scenarioD = Some r2 /\
    id r1 <> id r2.
Proof.
  destruct transformToShelter_id as (Hway & _ & Hinj).
  do 2 eexists. split; [reflexivity|]. split; [exact Hway|].
  intros Hsame.
  destruct (proj1 (Hinj Samples.node42 Samples.scenarioD _ _ eq_refl Hway) Hsame)
    as [Htype _].
  discriminate Htype.
Defined.

(** ** The remote client *)

Section Client.

Variable env : Env.

(** The loop goes through the endpoints that fail, in order, and returns
    at the first one that answers with an [elements] array. *)
Lemma fetchLoop_first_valid pre endpoint post elements lastError w :
  Forall (failed env) pre ->
  post_outcome env endpoint = Ok (Elements elements) ->
  exists w',
    fetchLoop env (pre ++ endpoint :: post) lastError w =
      (Ok (omap transformToShelter elements), w') /\
    requests w' = (requests w ++ pre ++ [endpoint])%list.
Proof.
  intros Hpre Hvalid. revert lastError w.
  induction Hpre as [|first pre Hfirst _ IH]; intros lastError w; simpl.
  - pose proof (tryEndpoint_result env endpoint w) as Hr.
    destruct (tryEndpoint_requests env endpoint w) as (_ & _ & Hq).
    destruct (tryEndpoint env endpoint w) as [r w1]. simpl in *.
    rewrite Hvalid in Hr. subst r. eauto.
  - pose proof (tryEndpoint_result env first w) as Hr.
    destruct (tryEndpoint_requests env first w) as (_ & _ & Hq).
    destruct (tryEndpoint env first w) as [r w1]. simpl in *.
    unfold failed in Hfirst.
    destruct (post_outcome env first) as [[|?]|e]; [|done|]; subst r.
    + destruct (IH lastError w1) as (w' & -> & Hreq).
      exists w'. by rewrite Hreq, Hq, <- !app_assoc.
    + run.
      destruct (IH (Some (ErrorObj (message_or "Unknown error" e)))
                  (logged (WarnEndpointFailed first (message_or "Unknown error" e)) w1))
        as (w' & -> & Hreq).
      exists w'. simpl in *. by rewrite Hreq, Hq, <- !app_assoc.
Qed.

(** When every endpoint fails the loop goes through all of them and
    throws: the error of the last endpoint that raised one, else the
    [lastError] it started with, else the error made for the occasion. *)
Lemma fetchLoop_all_failed endpoints lastError w :
  Forall (failed env) endpoints ->
  exists w',
    fetchLoop env endpoints lastError w =
      (Throw (default (ErrorObj "All Overpass API endpoints failed")
                (match last (omap (raised env) endpoints) with
                 | Some message => Some (ErrorObj message)
                 | None => lastError
                 end)), w') /\
    requests w' = (requests w ++ endpoints)%list.
Proof.
  intros Hall. revert lastError w.
  induction Hall as [|first rest Hfirst _ IH]; intros lastError w; simpl.
  - exists w. by rewrite app_nil_r.
  - pose proof (tryEndpoint_result env first w) as Hr.
    destruct (tryEndpoint_requests env first w) as (_ & _ & Hq).
    destruct (tryEndpoint env first w) as [r w1]. simpl in *.
    unfold failed in Hfirst. unfold raised at 1.
    destruct (post_outcome env first) as [[|?]|e]; [|done|]; subst r.
    + destruct (IH lastError w1) as (w' & -> & Hreq).
      exists w'. by rewrite Hreq, Hq, <- app_assoc.
    + run.
      destruct (IH (Some (ErrorObj (message_or "Unknown error" e)))
                  (logged (WarnEndpointFailed first (message_or "Unknown error" e)) w1))
        as (w' & -> & Hreq).
      exists w'. simpl in *. rewrite Hreq, Hq, <- app_assoc. split; [|done].
      rewrite last_cons. unfold omap.
      by destruct (last (list_omap _ _ (raised env) rest)).
Qed.

End Client.

(** C7. The endpoints are tried in the order of [OVERPASS_ENDPOINTS], and
    the client returns at the first one whose response has an [elements]
    array, empty or not: the requests made are those to the endpoints
    that failed before it and the one to it, in that order, and the
    result is its elements, normalized. *)
Theorem fetchFromAPI_stops_at_first_valid
    (env : Env) (pre : list string) (endpoint : string) (post : list string)
    (elements : list OverpassElement) (w : World) :
  OVERPASS_ENDPOINTS = (pre ++ endpoint :: post)%list ->
  Forall (failed env) pre ->
  post_outcome env endpoint = Ok (Elements elements) ->
  exists w',
    fetchFromAPI env w = (Ok (omap transformToShelter elements), w') /\
    requests w' = (requests w ++ pre ++ [endpoint])%list.
Proof.
  intros Hsplit Hpre Hvalid. unfold fetchFromAPI. rewrite Hsplit.
  by apply fetchLoop_first_valid.
Qed.

(** The main endpoint times out and the fast mirror answers with no
    element: the empty list is returned and the alternative mirror is not
    contacted. *)
Lemma fetchFromAPI_stops_at_empty_answer :
  exists w',
    fetchFromAPI Samples.second_answers_empty (Samples.emptyWorld 0) = (Ok [], w') /\
    requests w' = [Samples.main_endpoint; Samples.fast_mirror].
Proof.
  apply (fetchFromAPI_stops_at_first_valid Samples.second_answers_empty
           [Samples.main_endpoint] Samples.fast_mirror [Samples.alternative_mirror]
           [] (Samples.emptyWorld 0)).
  - reflexivity.
  - repeat constructor.
  - reflexivity.
Defined.

(** C8, as the code has it. When every endpoint fails, by raising or by
    a response without [elements], the client has posted to all of them
    and throws: the error of the last endpoint that raised one (a thrown
    value that is no [Error] becomes [Error("Unknown error")]), and the
    error "All Overpass API endpoints failed" when none raised.  A
    response without [elements] records no error. *)
Theorem fetchFromAPI_all_failed (env : Env) (w : World) :
  Forall (failed env) OVERPASS_ENDPOINTS ->
  exists w',
    fetchFromAPI env w =
      (Throw (ErrorObj (default "All Overpass API endpoints failed"
                          (last (omap (raised env) OVERPASS_ENDPOINTS)))), w') /\
    requests w' = (requests w ++ OVERPASS_ENDPOINTS)%list.
Proof.
  intros Hall.
  destruct (fetchLoop_all_failed env OVERPASS_ENDPOINTS None w Hall) as (w' & H & Hreq).
  exists w'. split; [|done]. unfold fetchFromAPI. rewrite H.
  unfold omap. by destruct (last (list_omap _ _ (raised env) OVERPASS_ENDPOINTS)).
Qed.

Lemma fetchFromAPI_none_answers :
  exists w',
    fetchFromAPI Samples.none_answers (Samples.emptyWorld 0) =
      (Throw (ErrorObj "Unknown error"), w') /\
    requests w' = OVERPASS_ENDPOINTS.
Proof.
  apply (fetchFromAPI_all_failed Samples.none_answers (Samples.emptyWorld 0)).
  repeat constructor.
Defined.

(** C8, as stated, fails.  Were a response without [elements] a failure
    identical to a transport error, some error [e] would stand for it, and
    putting [e] in its place would not change what the client throws.
    With the main endpoint raising and both mirrors answering without
    [elements] the client throws the error of the main endpoint, whatever
    it is, and not one of the last failure observed: no [e] fits both
    [first_raises "a"] and [first_raises "b"]. *)
Lemma structural_failure_is_not_a_transport_error :
  ~ exists e : Thrown, forall (env : Env) (w : World),
      Forall (failed env) OVERPASS_ENDPOINTS ->
      (fetchFromAPI env w).1 = (fetchFromAPI (structural_as_transport e env) w).1.
Proof.
  intros [e H].
  assert (Ha : Forall (failed (Samples.first_raises "a")) OVERPASS_ENDPOINTS)
    by (repeat constructor).
  assert (Hb : Forall (failed (Samples.first_raises "b")) OVERPASS_ENDPOINTS)
    by (repeat constructor).
  apply (H _ (Samples.emptyWorld 0)) in Ha, Hb.
  vm_compute in Ha, Hb. congruence.
Qed.

(** ** The cache and the pipeline *)

(** C3, as the code has it. When the fetch yields at least one record,
    [getShelters] returns exactly those records tagged [api], without a
    diagnostic, and attempts both writes: a key whose write AsyncStorage
    accepts holds the serialized records, respectively the time of the
    call; a key whose write is rejected keeps what it held (the error is
    logged and swallowed by [saveToCache]); no other key changes. *)
Theorem getShelters_api_result_and_cache
    (env : Env) (w : World) (records : list Shelter) :
  (fetchFromAPI env w).1 = Ok records ->
  records <> [] ->
  exists w',
    getShelters env w =
      (Ok {| shelters := records; source := api; error := None |}, w') /\
    (setItem_fault env STORAGE_KEY = None ->
       storage w' !! STORAGE_KEY = Some (JSON_stringify env records)) /\
    (setItem_fault env STORAGE_TIMESTAMP_KEY = None ->
       storage w' !! STORAGE_TIMESTAMP_KEY = Some (Js.Number_toString (now w))) /\
    (forall key,
       is_Some (setItem_fault env key) \/
         (key <> STORAGE_KEY /\ key <> STORAGE_TIMESTAMP_KEY) ->
       storage w' !! key = storage w !! key).
Proof.
  intros Hfetch Hrecords.
  destruct (getShelters_cases env w) as (c & w1 & w' & _ & _ & H).
  rewrite Hfetch in H. destruct records as [|s l]; [done|].
  destruct H as [Hs ->]. exists w'. split; [done|].
  rewrite Hs. unfold written. repeat split.
  - intros ->. destruct (setItem_fault env STORAGE_TIMESTAMP_KEY).
    + apply lookup_insert_eq.
    + rewrite lookup_insert_ne by done. apply lookup_insert_eq.
  - intros ->. apply lookup_insert_eq.
  - intros key [[e He]|[H1 H2]].
    + repeat case_match; try done;
        repeat (rewrite lookup_insert_ne by congruence); done.
    + repeat case_match; try done;
        repeat (rewrite lookup_insert_ne by congruence); done.
Qed.

Lemma getShelters_online :
  exists w',
    getShelters Samples.online (Samples.cachedWorld [Samples.cityHospital] 5 1000) =
      (Ok {| shelters := [Samples.pharmacy; Samples.cityHospital];
             source := api; error := None |}, w') /\
    storage w' !! STORAGE_KEY = Some "[osm_node_7,osm_way_42]" /\
    storage w' !! STORAGE_TIMESTAMP_KEY = Some "1000".
Proof.
  destruct (getShelters_api_result_and_cache Samples.online
              (Samples.cachedWorld [Samples.cityHospital] 5 1000)
              [Samples.pharmacy; Samples.cityHospital])
    as (w' & H & Hlist & Hstamp & _).
  - vm_compute. reflexivity.
  - discriminate.
  - exists w'. split; [exact H|]. split; [exact (Hlist eq_refl)|exact (Hstamp eq_refl)].
Defined.

(** C3, as stated, fails: the main endpoint has a record and AsyncStorage
    rejects the writes.  The record is returned tagged [api], and the
    cache still holds the list saved before, not the record. *)
Lemma getShelters_rejected_write_keeps_old_cache :
  (fetchFromAPI Samples.disk_full (Samples.cachedWorld [Samples.cityHospital] 5 1000)).1 =
    Ok [Samples.pharmacy] /\
  exists w',
    getShelters Samples.disk_full (Samples.cachedWorld [Samples.cityHospital] 5 1000) =
      (Ok {| shelters := [Samples.pharmacy]; source := api; error := None |}, w') /\
    storage w' !! STORAGE_KEY = Some (JSON_stringify Samples.disk_full [Samples.cityHospital]) /\
    storage w' !! STORAGE_KEY <> Some (JSON_stringify Samples.disk_full [Samples.pharmacy]) /\
    storage w' !! STORAGE_TIMESTAMP_KEY = Some "5".
Proof.
  split; [by vm_compute|].
  eexists. split; [vm_compute; reflexivity|].
  split; [by vm_compute|]. split; by vm_compute.
Qed.

(** C4. An empty result is never persisted.  [saveToCache] is called by
    the two operations only, and by both under the guard
    [apiShelters.length > 0]: when the fetch returns no record, or
    throws, [getShelters] and [refreshShelters] leave every key of the
    store as it was, the list and its time stamp among them, and their
    result is not tagged [api]. *)
Theorem empty_or_failed_fetch_keeps_store (env : Env) (w : World) :
  (fetchFromAPI env w).1 = Ok [] \/ (exists e, (fetchFromAPI env w).1 = Throw e) ->
  (exists r w', getShelters env w = (Ok r, w') /\
     storage w' = storage w /\ source r <> api) /\
  (exists r w', refreshShelters env w = (Ok r, w') /\
     storage w' = storage w /\ source r <> api).
Proof.
  intros Hfetch. split.
  - destruct (getShelters_cases env w) as (c & w1 & w' & _ & _ & H).
    destruct Hfetch as [Hf|[e Hf]]; rewrite Hf in H; destruct H as [Hs ->];
      do 2 eexists; (split; [reflexivity|]); (split; [done|]); by destruct (usable c).
  - destruct (refreshShelters_cases env w) as (c & w' & _ & _ & H).
    destruct Hfetch as [Hf|[e Hf]]; rewrite Hf in H; destruct H as [Hs ->];
      do 2 eexists; (split; [reflexivity|]); (split; [done|]); by destruct (usable c).
Qed.

(** Scenario C: the cache holds a list and every endpoint answers with an
    empty array. *)
Lemma nothing_found_keeps_store :
  (exists r w',
     getShelters (Samples.nothing_found [[Samples.cityHospital]])
       (Samples.cachedWorld [Samples.cityHospital] 5 1000) = (Ok r, w') /\
     storage w' = storage (Samples.cachedWorld [Samples.cityHospital] 5 1000) /\
     source r <> api) /\
  (exists r w',
     refreshShelters (Samples.nothing_found [[Samples.cityHospital]])
       (Samples.cachedWorld [Samples.cityHospital] 5 1000) = (Ok r, w') /\
     storage w' = storage (Samples.cachedWorld [Samples.cityHospital] 5 1000) /\
     source r <> api).
Proof.
  apply (empty_or_failed_fetch_keeps_store
           (Samples.nothing_found [[Samples.cityHospital]])
           (Samples.cachedWorld [Samples.cityHospital] 5 1000)).
  left. vm_compute. reflexivity.
Defined.

(** ** Coordinates *)

Section Coordinates.

Variable env : Env.







End Coordinates.






(** ** Saving, then loading *)

(** With a text under [STORAGE_KEY] that the codec reads as [l], and reads
    that are served, [loadFromCache] returns [l], whatever the age of the
    time stamp, which it only compares and logs. *)
Lemma loadFromCache_present (env : Env) (w : World) (text : string) (l : list Shelter) :
  getItem_fault env STORAGE_KEY = None ->
  getItem_fault env STORAGE_TIMESTAMP_KEY = None ->
  storage w !! STORAGE_KEY = Some text ->
  text <> "" ->
  JSON_parse env text = Ok l ->
  exists w',
    loadFromCache env w = (Ok (Some l), w') /\ storage w' = storage w /\
    console w' =
      (console w ++
       match storage w !! STORAGE_TIMESTAMP_KEY ≫= ParseInt.parseInt with
       | Some stamp =>
           if CACHE_MAX_AGE <? now w - stamp
           then [LogCacheExpired (now w - stamp)] else []
       | None => []
       end ++ [LogLoaded (length l)])%list.
Proof.
  intros Hget Hget' Htext Hne Hparse.
  unfold loadFromCache, getItem. run. rewrite Hget, Hget', Htext. simpl.
  destruct text as [|c text]; [done|]. run.
  destruct (storage w !! STORAGE_TIMESTAMP_KEY) as [[|c' stamp]|]; simpl; run.
  - rewrite Hparse. eauto.
  - destruct (ParseInt.parseInt (String c' stamp)) as [t|]; simpl.
    + destruct (CACHE_MAX_AGE <? now w - t); run; rewrite Hparse; simpl.
      * eexists. split; [reflexivity|]. split; [done|]. simpl. by rewrite <- app_assoc.
      * eauto.
    + run. rewrite Hparse. eauto.
  - rewrite Hparse. eauto.
Qed.

(** C10, as the code has it. Let [s] be a list the codec is faithful on,
    saved by [saveToCache] in a store that accepts the write of the list.
    In any later world with the store as the save left it, whatever its
    clock, if the two reads are served [loadFromCache] returns [s]; the
    load changes no key, and when the time stamp was written too it logs
    the age if it is over [CACHE_MAX_AGE], then the count of shelters
    loaded. *)
Theorem saveToCache_then_loadFromCache
    (env : Env) (s : list Shelter) (w w1 later : World) :
  JSON_faithful env s ->
  setItem_fault env STORAGE_KEY = None ->
  getItem_fault env STORAGE_KEY = None ->
  getItem_fault env STORAGE_TIMESTAMP_KEY = None ->
  saveToCache env s w = (Ok tt, w1) ->
  storage later = storage w1 ->
  exists w2,
    loadFromCache env later = (Ok (Some s), w2) /\
    storage w2 = storage later /\
    (setItem_fault env STORAGE_TIMESTAMP_KEY = None ->
     console w2 =
       (console later ++
        (if CACHE_MAX_AGE <? now later - now w
         then [LogCacheExpired (now later - now w)] else []) ++
        [LogLoaded (length s)])%list).
Proof.
  intros [Hparse Htext] Hset Hget Hget' Hsave Hlater.
  destruct (saveToCache_resolves env s w) as (w1' & Hsave' & _ & _ & Hstore).
  rewrite Hsave in Hsave'. injection Hsave' as <-.
  unfold written in Hstore. rewrite Hset in Hstore.
  assert (Hkey : storage later !! STORAGE_KEY = Some (JSON_stringify env s)).
  { rewrite Hlater, Hstore. destruct (setItem_fault env STORAGE_TIMESTAMP_KEY).
    - apply lookup_insert_eq.
    - rewrite lookup_insert_ne by done. apply lookup_insert_eq. }
  destruct (loadFromCache_present env later _ s Hget Hget' Hkey Htext Hparse)
    as (w2 & Hload & Hsame & Hlog).
  exists w2. split; [done|]. split; [done|].
  intros Hstamp. rewrite Hlog, Hlater, Hstore, Hstamp, lookup_insert_eq. simpl.
  by rewrite parseInt_Number_toString.
Qed.

(** A list saved at time 1000 and loaded two days later. *)
Lemma stale_cache_is_loaded_back :
  exists w1 w2,
    saveToCache (Samples.offline [[Samples.pharmacy]]) [Samples.pharmacy]
      (Samples.emptyWorld 1000) = (Ok tt, w1) /\
    loadFromCache (Samples.offline [[Samples.pharmacy]]) (at_time 172801000 w1) =
      (Ok (Some [Samples.pharmacy]), w2) /\
    console w2 = (console w1 ++ [LogCacheExpired 172800000; LogLoaded 1])%list.
Proof.
  destruct (saveToCache_resolves (Samples.offline [[Samples.pharmacy]])
              [Samples.pharmacy] (Samples.emptyWorld 1000)) as (w1 & Hsave & _).
  exists w1.
  destruct (saveToCache_then_loadFromCache (Samples.offline [[Samples.pharmacy]])
              [Samples.pharmacy] (Samples.emptyWorld 1000) w1 (at_time 172801000 w1))
    as (w2 & Hload & _ & Hlog).
  - split; [by vm_compute|discriminate].
  - reflexivity.
  - reflexivity.
  - reflexivity.
  - exact Hsave.
  - reflexivity.
  - exists w2. split; [exact Hsave|]. split; [exact Hload|]. exact (Hlog eq_refl).
Defined.

(** C10, as stated, fails: AsyncStorage rejects the write of the list,
    [saveToCache] logs the error and resolves, and [loadFromCache] finds
    no cache. *)
Lemma rejected_save_is_not_loaded_back :
  JSON_faithful Samples.quota_exceeded [Samples.pharmacy] /\
  exists w1 w2,
    saveToCache Samples.quota_exceeded [Samples.pharmacy] (Samples.emptyWorld 1000) =
      (Ok tt, w1) /\
    loadFromCache Samples.quota_exceeded w1 = (Ok None, w2).
Proof.
  split; [split; [by vm_compute|discriminate]|].
  do 2 eexists. split; vm_compute; reflexivity.
Qed.

(** * Properties of the rest of the application *)

Set Warnings "-clear-no-such-hyp".

(** ** The rest of the shelter service *)

Ltac run_task :=
  unfold andThen, attempt, resolve, reject, emit, service; simpl.

(** [clearShelterCache] resolves, and the store it leaves. *)
Lemma clearShelterCache_cases (removeItem_fault : string -> option Thrown) (w : World) :
  exists w',
    clearShelterCache removeItem_fault w = (Ok tt, w') /\
    (forall key,
       storage w' !! key =
         if decide ((key = STORAGE_KEY \/ key = STORAGE_TIMESTAMP_KEY) /\
                    removeItem_fault key = None)
         then None else storage w !! key).
Proof.
  unfold clearShelterCache, removeItem, Promise_all, console_log. run.
  destruct (removeItem_fault STORAGE_KEY) eqn:H1,
           (removeItem_fault STORAGE_TIMESTAMP_KEY) eqn:H2; simpl;
    eexists; (split; [reflexivity|]); simpl;
    intros key; rewrite ?lookup_delete;
    repeat destruct (decide _); try done; subst; try (intuition congruence);
    exfalso; auto.
Qed.

(** X1. [clearShelterCache] never throws and writes one console line:
    "Cache cleared" when AsyncStorage accepts both removals, and otherwise
    the error line with what a rejected removal threw.  A key whose
    removal is accepted is absent afterwards, also when the other removal
    is rejected; every other key, the two of the cache included when
    their removal is rejected, holds what it held. *)
Theorem clearShelterCache_resolves (removeItem_fault : string -> option Thrown) (w : World) :
  exists w',
    clearShelterCache removeItem_fault w = (Ok tt, w') /\
    now w' = now w /\
    requests w' = requests w /\
    (removeItem_fault STORAGE_KEY = None /\
     removeItem_fault STORAGE_TIMESTAMP_KEY = None /\
     console w' = (console w ++ [LogCacheCleared])%list
     \/
     exists key e,
       (key = STORAGE_KEY \/ key = STORAGE_TIMESTAMP_KEY) /\
       removeItem_fault key = Some e /\
       console w' = (console w ++ [ErrClearingCache e])%list) /\
    (forall key,
       storage w' !! key =
         if decide ((key = STORAGE_KEY \/ key = STORAGE_TIMESTAMP_KEY) /\
                    removeItem_fault key = None)
         then None else storage w !! key).
Proof.
  unfold clearShelterCache, removeItem, Promise_all, console_log. run.
  destruct (removeItem_fault STORAGE_KEY) eqn:H1,
           (removeItem_fault STORAGE_TIMESTAMP_KEY) eqn:H2; simpl;
    eexists; (split; [reflexivity|]); simpl; (split; [done|]); (split; [done|]);
    (split; [first [left; done | right; eauto 10]|]);
    intros key; rewrite ?lookup_delete;
    repeat destruct (decide _); try done; subst; try (intuition congruence);
    exfalso; auto.
Qed.

Section CacheInfo.

Variable env : Env.

(** Without a text under [STORAGE_KEY] there is no cache to load. *)
Lemma loadFromCache_absent w :
  storage w !! STORAGE_KEY = None -> (loadFromCache env w).1 = Ok None.
Proof.
  intros Hkey. unfold loadFromCache, getItem. run. rewrite Hkey.
  by repeat (case_match; simplify_eq/=; run).
Qed.

(** [getCacheInfo] resolves and changes nothing, the console included. *)
Lemma getCacheInfo_resolves w :
  exists info, getCacheInfo env w = (Ok info, w).
Proof.
  unfold getCacheInfo, getItem. run.
  repeat (case_match; simplify_eq/=; run); eauto.
Qed.

Lemma getCacheInfo_absent w :
  storage w !! STORAGE_KEY = None ->
  getCacheInfo env w =
    (Ok {| cache_exists := false; count := 0; ageHours := AgeNull |}, w).
Proof.
  intros Hkey. unfold getCacheInfo, getItem. run. rewrite Hkey.
  by repeat (case_match; simplify_eq/=; run).
Qed.

End CacheInfo.

(** X2. Once [clearShelterCache] has removed the list (the removal of
    [STORAGE_KEY] was accepted), nothing is cached for any reader:
    [loadFromCache] returns null, [getCacheInfo] reports no cache, and
    neither [getShelters] nor [refreshShelters] answers from the cache. *)
Theorem cleared_cache_is_absent
    (removeItem_fault : string -> option Thrown) (env : Env) (w w' : World) :
  removeItem_fault STORAGE_KEY = None ->
  clearShelterCache removeItem_fault w = (Ok tt, w') ->
  (loadFromCache env w').1 = Ok None /\
  getCacheInfo env w' =
    (Ok {| cache_exists := false; count := 0; ageHours := AgeNull |}, w') /\
  (exists r w'', getShelters env w' = (Ok r, w'') /\ source r <> cache) /\
  (exists r w'', refreshShelters env w' = (Ok r, w'') /\ source r <> cache).
Proof.
  intros Hfault Hclear.
  destruct (clearShelterCache_cases removeItem_fault w) as (w1 & H1 & Hkeys).
  rewrite Hclear in H1. injection H1 as <-.
  assert (Hkey : storage w' !! STORAGE_KEY = None).
  { rewrite Hkeys. by rewrite decide_True by auto. }
  pose proof (loadFromCache_absent env _ Hkey) as Hload.
  split; [done|]. split; [by apply getCacheInfo_absent|]. split.
  - destruct (getShelters_cases env w') as (c & w1 & w'' & Hc & _ & H).
    rewrite Hc in Hload. simpl in Hload. injection Hload as ->.
    destruct (fetchFromAPI env w').1 as [[|x l]|e]; destruct H as [_ ->];
      by do 2 eexists.
  - destruct (refreshShelters_cases env w') as (c & w'' & Hc & _ & H).
    rewrite Hc in Hload. injection Hload as ->.
    destruct (fetchFromAPI env w').1 as [[|x l]|e]; destruct H as [_ ->];
      by do 2 eexists.
Qed.

(** The cache of [cachedWorld] is cleared. *)
Lemma cleared_cachedWorld_is_absent :
  exists w',
    clearShelterCache (fun _ => None)
      (Samples.cachedWorld [Samples.cityHospital] 5 1000) = (Ok tt, w') /\
    console w' = [LogCacheCleared] /\
    (loadFromCache (Samples.offline [[Samples.cityHospital]]) w').1 = Ok None /\
    exists r w'',
      getShelters (Samples.offline [[Samples.cityHospital]]) w' = (Ok r, w'') /\
      source r <> cache.
Proof.
  eexists. split; [reflexivity|]. split; [reflexivity|].
  destruct (cleared_cache_is_absent (fun _ => None)
              (Samples.offline [[Samples.cityHospital]])
              (Samples.cachedWorld [Samples.cityHospital] 5 1000)
              _ eq_refl eq_refl) as (H1 & _ & H2 & _).
  split; [exact H1|exact H2].
Defined.

(** X3. [getCacheInfo] never throws, changes nothing and agrees with
    [loadFromCache]: it reports a cache exactly when [loadFromCache] would
    return a list, with the length of that list as count; otherwise it
    reports no cache, a count of zero and no age. *)
Theorem getCacheInfo_agrees_with_loadFromCache (env : Env) (w : World) :
  exists info,
    getCacheInfo env w = (Ok info, w) /\
    match (loadFromCache env w).1 with
    | Ok (Some l) => cache_exists info = true /\ count info = length l
    | _ => info = {| cache_exists := false; count := 0; ageHours := AgeNull |}
    end.
Proof.
  unfold getCacheInfo, loadFromCache, getItem. run.
  repeat (case_match; simplify_eq/=; run); eauto.
Qed.

(** [Math_round_div a d] is within half of [d] of the quotient. *)
Lemma Math_round_div_bounds a d :
  0 < d -> - d < 2 * (d * Math_round_div a d - a) <= d.
Proof.
  intros Hd. unfold Math_round_div.
  pose proof (Z.div_mod (2 * a + d) (2 * d)).
  pose proof (Z.mod_pos_bound (2 * a + d) (2 * d)).
  lia.
Qed.

(** X4. After [saveToCache] of a list the codec is faithful on, with both
    writes accepted and the reads served, [getCacheInfo] at any later time
    reports the cache, the number of shelters saved, and an age in hours
    that is within half an hour of the time passed since the save. *)
Theorem getCacheInfo_after_saveToCache
    (env : Env) (s : list Shelter) (w w1 later : World) :
  JSON_faithful env s ->
  setItem_fault env STORAGE_KEY = None ->
  setItem_fault env STORAGE_TIMESTAMP_KEY = None ->
  getItem_fault env STORAGE_KEY = None ->
  getItem_fault env STORAGE_TIMESTAMP_KEY = None ->
  saveToCache env s w = (Ok tt, w1) ->
  storage later = storage w1 ->
  exists hours,
    getCacheInfo env later =
      (Ok {| cache_exists := true; count := length s; ageHours := Age hours |}, later) /\
    - 1800000 < 3600000 * hours - (now later - now w) <= 1800000.
Proof.
  intros [Hparse Htext] Hset Hset' Hget Hget' Hsave Hlater.
  destruct (saveToCache_resolves env s w) as (w1' & Hsave' & _ & _ & Hstore).
  rewrite Hsave in Hsave'. injection Hsave' as <-.
  unfold written in Hstore. rewrite Hset, Hset' in Hstore.
  exists (Math_round_div (now later - now w) 3600000). split.
  - unfold getCacheInfo, getItem. run. rewrite Hget, Hget', Hlater, Hstore.
    rewrite lookup_insert_ne by done. rewrite !lookup_insert_eq. simpl.
    destruct (JSON_stringify env s) as [|c text] eqn:Hs; [done|]. run.
    rewrite Hparse. simpl.
    pose proof (parseInt_Number_toString (now w)) as Hstamp.
    destruct (Js.Number_toString (now w)) as [|c' stamp]; [done|].
    by rewrite Hstamp.
  - pose proof (Math_round_div_bounds (now later - now w) 3600000). lia.
Qed.

(** A list saved at time 1000 and inspected 100 minutes later is two
    hours old. *)
Lemma getCacheInfo_after_100_minutes :
  exists w1,
    saveToCache (Samples.offline [[Samples.pharmacy]]) [Samples.pharmacy]
      (Samples.emptyWorld 1000) = (Ok tt, w1) /\
    getCacheInfo (Samples.offline [[Samples.pharmacy]]) (at_time 6001000 w1) =
      (Ok {| cache_exists := true; count := 1; ageHours := Age 2 |}, at_time 6001000 w1).
Proof.
  destruct (saveToCache_resolves (Samples.offline [[Samples.pharmacy]])
              [Samples.pharmacy] (Samples.emptyWorld 1000)) as (w1 & Hsave & _).
  exists w1. split; [exact Hsave|].
  destruct (getCacheInfo_after_saveToCache (Samples.offline [[Samples.pharmacy]])
              [Samples.pharmacy] (Samples.emptyWorld 1000) w1 (at_time 6001000 w1))
    as (hours & Hinfo & Hbounds); try reflexivity; try exact Hsave.
  - split; [by vm_compute|discriminate].
  - simpl in Hbounds. assert (hours = 2) as -> by lia. exact Hinfo.
Defined.

(** ** The remote client and the two operations, again *)

(** X5. Whatever the endpoints answer, [fetchFromAPI] posts to a prefix
    of [OVERPASS_ENDPOINTS], in order, of one to three endpoints, each
    once; it reads and writes no key of the store. *)
Theorem fetchFromAPI_requests (env : Env) (w : World) :
  exists n : nat,
    (1 <= n <= 3)%nat /\
    requests (fetchFromAPI env w).2 = (requests w ++ take n OVERPASS_ENDPOINTS)%list /\
    storage (fetchFromAPI env w).2 = storage w.
Proof.
  assert (Hloop : forall endpoints lastError w0,
            exists n : nat,
              (n <= length endpoints)%nat /\ (endpoints <> [] -> 1 <= n)%nat /\
              requests (fetchLoop env endpoints lastError w0).2 =
                (requests w0 ++ take n endpoints)%list).
  { induction endpoints as [|endpoint rest IH]; intros lastError w0.
    - exists 0%nat. simpl. by rewrite app_nil_r.
    - simpl. pose proof (tryEndpoint_result env endpoint w0) as Hr.
      destruct (tryEndpoint_requests env endpoint w0) as (_ & _ & Hq).
      destruct (tryEndpoint env endpoint w0) as [r w1]. simpl in *. subst r.
      destruct (post_outcome env endpoint) as [[|elements]|e].
      + destruct (IH lastError w1) as (n & Hn & _ & ->).
        exists (S n). simpl. rewrite Hq, <- app_assoc. (split; [lia|]); (split; [lia|]); done.
      + exists 1%nat. simpl. rewrite take_0. (split; [lia|]); (split; [lia|]); done.
      + run.
        destruct (IH (Some (ErrorObj (message_or "Unknown error" e)))
                     (logged (WarnEndpointFailed endpoint (message_or "Unknown error" e)) w1))
          as (n & Hn & _ & ->).
        exists (S n). simpl. rewrite Hq, <- app_assoc. (split; [lia|]); (split; [lia|]); done. }
  destruct (Hloop OVERPASS_ENDPOINTS None w) as (n & Hn & Hpos & Hreq).
  exists n. split; [split; [by apply Hpos|exact Hn]|]. split; [exact Hreq|].
  apply fetchLoop_frame.
Qed.

(** X6. A cache that [JSON.parse] cannot read counts as no cache: the
    error is caught, [loadFromCache] returns null and leaves the text in
    place, and [getShelters] answers with the fetched list or with the
    fallback, never from the cache. *)
Theorem corrupt_cache_is_ignored (env : Env) (w : World) (text : string) (e : Thrown) :
  storage w !! STORAGE_KEY = Some text ->
  JSON_parse env text = Throw e ->
  (loadFromCache env w).1 = Ok None /\
  storage (loadFromCache env w).2 = storage w /\
  exists r w',
    getShelters env w = (Ok r, w') /\
    match (fetchFromAPI env w).1 with
    | Ok (_ :: _) => source r = api
    | _ => source r = fallback /\ shelters r = FALLBACK_SHELTERS /\
           storage w' !! STORAGE_KEY = Some text
    end.
Proof.
  intros Hkey Hparse.
  assert (Hload : (loadFromCache env w).1 = Ok None).
  { unfold loadFromCache, getItem. run. rewrite Hkey.
    repeat (case_match; simplify_eq/=; run); try done; congruence. }
  split; [done|]. split.
  { destruct (loadFromCache_resolves env w) as (c & w1 & -> & Hs & _). done. }
  destruct (getShelters_cases env w) as (c & w1 & w' & Hc & _ & H).
  rewrite Hc in Hload. injection Hload as ->.
  destruct (fetchFromAPI env w).1 as [[|x l]|e']; destruct H as [Hs ->];
    do 2 eexists; (split; [reflexivity|]); simpl; rewrite ?Hs; auto.
Qed.

(** A store with a text that is no list, and no network. *)
Lemma garbage_in_cache_gives_fallback :
  exists r w',
    getShelters (Samples.offline [])
      (stored {[ STORAGE_KEY := "{oops" ]} (Samples.emptyWorld 1000)) = (Ok r, w') /\
    source r = fallback /\ shelters r = FALLBACK_SHELTERS /\
    storage w' !! STORAGE_KEY = Some "{oops".
Proof.
  destruct (corrupt_cache_is_ignored (Samples.offline [])
              (stored {[ STORAGE_KEY := "{oops" ]} (Samples.emptyWorld 1000))
              "{oops" (ErrorObj "JSON Parse error"))
    as (_ & _ & r & w' & Hget & H).
  - by vm_compute.
  - reflexivity.
  - exists r, w'. split; [exact Hget|].
    assert (Hf : (fetchFromAPI (Samples.offline [])
                    (stored {[ STORAGE_KEY := "{oops" ]} (Samples.emptyWorld 1000))).1 =
                 Throw (ErrorObj "Network Error")) by (vm_compute; reflexivity).
    rewrite Hf in H. exact H.
Defined.

(** X7. What [getShelters] fetched and saved is what it serves when the
    network is gone: after a call that fetched [records] (at least one)
    and whose write of the list was accepted, a later call whose fetch
    throws, on the store as the first call left it, returns exactly
    [records] tagged [cache], with the message of the error. *)
Theorem fetched_list_is_served_offline
    (online offline : Env) (w w1 later : World) (records : list Shelter)
    (r : ShelterServiceResult) (e : Thrown) :
  (fetchFromAPI online w).1 = Ok records ->
  records <> [] ->
  setItem_fault online STORAGE_KEY = None ->
  getShelters online w = (Ok r, w1) ->
  storage later = storage w1 ->
  getItem_fault offline STORAGE_KEY = None ->
  getItem_fault offline STORAGE_TIMESTAMP_KEY = None ->
  JSON_parse offline (JSON_stringify online records) = Ok records ->
  JSON_stringify online records <> "" ->
  (fetchFromAPI offline later).1 = Throw e ->
  exists w2,
    getShelters offline later =
      (Ok {| shelters := records; source := cache;
             error := Some ("API unavailable: " +:+ message_or "Unknown API error" e) |},
       w2) /\
    storage w2 = storage later.
Proof.
  intros Hfetch Hne Hset Hfirst Hlater Hget Hget' Hparse Htext Hoff.
  destruct (getShelters_cases online w) as (c & w0 & w1' & _ & _ & H).
  rewrite Hfetch in H. destruct records as [|x l]; [done|].
  destruct H as [Hstore H]. rewrite Hfirst in H. injection H as _ <-.
  unfold written in Hstore. rewrite Hset in Hstore.
  assert (Hkey : storage later !! STORAGE_KEY = Some (JSON_stringify online (x :: l))).
  { rewrite Hlater, Hstore. destruct (setItem_fault online STORAGE_TIMESTAMP_KEY).
    - apply lookup_insert_eq.
    - rewrite lookup_insert_ne by done. apply lookup_insert_eq. }
  destruct (loadFromCache_present offline later _ _ Hget Hget' Hkey Htext Hparse)
    as (w2 & Hload & _).
  destruct (getShelters_cases offline later) as (c' & w2' & w3 & Hc & _ & H).
  rewrite Hload in Hc. injection Hc as <- _.
  rewrite Hoff in H. destruct H as [Hs ->]. by exists w3.
Qed.

(** Online at time 1000, offline a day and a half later. *)
Lemma online_then_offline :
  exists r w1 w2,
    getShelters Samples.online (Samples.emptyWorld 1000) = (Ok r, w1) /\
    getShelters (Samples.offline [[Samples.pharmacy; Samples.cityHospital]])
      (at_time 129601000 w1) =
      (Ok {| shelters := [Samples.pharmacy; Samples.cityHospital]; source := cache;
             error := Some "API unavailable: Network Error" |}, w2).
Proof.
  destruct (getShelters_cases Samples.online (Samples.emptyWorld 1000))
    as (c & w0 & w1 & _ & _ & H).
  assert (Hf : (fetchFromAPI Samples.online (Samples.emptyWorld 1000)).1 =
               Ok [Samples.pharmacy; Samples.cityHospital]) by (vm_compute; reflexivity).
  rewrite Hf in H. destruct H as [_ Hfirst].
  destruct (fetched_list_is_served_offline Samples.online
              (Samples.offline [[Samples.pharmacy; Samples.cityHospital]])
              (Samples.emptyWorld 1000) w1 (at_time 129601000 w1)
              [Samples.pharmacy; Samples.cityHospital] _ (ErrorObj "Network Error")
              Hf ltac:(discriminate) eq_refl Hfirst eq_refl eq_refl eq_refl)
    as (w2 & Hsecond & _).
  - by vm_compute.
  - discriminate.
  - unfold fetchFromAPI.
    rewrite (fetchLoop_result _ OVERPASS_ENDPOINTS None _ (Samples.emptyWorld 0)).
    vm_compute. reflexivity.
  - do 3 eexists. split; [exact Hfirst|exact Hsecond].
Defined.

(** X8. A forced refresh and a normal load decide alike: started on the
    same world, [refreshShelters] and [getShelters] return the same list
    with the same tag and leave the same store; only the diagnostics
    differ. *)
Theorem refreshShelters_same_data_as_getShelters (env : Env) (w : World) :
  exists r1 w1 r2 w2,
    getShelters env w = (Ok r1, w1) /\
    refreshShelters env w = (Ok r2, w2) /\
    shelters r1 = shelters r2 /\
    source r1 = source r2 /\
    storage w1 = storage w2.
Proof.
  destruct (getShelters_cases env w) as (c & w0 & w1 & Hc & _ & H1).
  destruct (refreshShelters_cases env w) as (c' & w2 & Hc' & _ & H2).
  rewrite Hc in Hc'. injection Hc' as <-.
  destruct (fetchFromAPI env w).1 as [[|x l]|e];
    destruct H1 as [Hs1 ->]; destruct H2 as [Hs2 ->];
    do 4 eexists; (split; [reflexivity|]); (split; [reflexivity|]);
    rewrite Hs1, Hs2; by destruct (usable c).
Qed.

(** ** The normalizer, again *)

Lemma transformToShelter_same_id e1 e2 r1 r2 :
  transformToShelter e1 = Some r1 ->
  transformToShelter e2 = Some r2 ->
  id r1 = id r2 ->
  el_type e1 = el_type e2 /\ el_id e1 = el_id e2.
Proof.
  unfold transformToShelter.
  destruct (extractCoordinates e1), (extractCoordinates e2); try done.
  intros [= <-] [= <-]. simpl.
  destruct (el_type e1), (el_type e2); simpl; intros [= H]; try done;
    by apply Number_toString_inj in H.
Qed.

(** X9. Elements that differ in type or in numeric id give records that
    differ in id: the normalized list of a response without a repeated
    element has no two records with the same id, whatever elements were
    dropped for want of coordinates. *)
Theorem normalized_ids_unique (elements : list OverpassElement) :
  NoDup ((fun e => (el_type e, el_id e)) <$> elements) ->
  NoDup (id <$> omap transformToShelter elements).
Proof.
  induction elements as [|e rest IH]; simpl; [constructor|].
  rewrite NoDup_cons. intros [Hnew Hrest].
  destruct (transformToShelter e) as [r|] eqn:Hr; simpl; [|by apply IH].
  apply NoDup_cons. split; [|by apply IH].
  intros Hin. apply Hnew.
  apply list_elem_of_fmap in Hin as (r' & Hid & Hin).
  apply list_elem_of_omap in Hin as (e' & He' & Hr').
  destruct (transformToShelter_same_id e e' r r' Hr Hr' Hid) as [Ht Hn].
  apply list_elem_of_fmap. exists e'. split; [by rewrite Ht, Hn|done].
Qed.

(** The three elements of the sample answer. *)
Lemma sample_answer_ids_unique :
  NoDup (id <$> omap transformToShelter
                  [Samples.pharmacy7; Samples.bareWay; Samples.scenarioD; Samples.node42]).
Proof.
  apply normalized_ids_unique.
  simpl.
  repeat (apply NoDup_cons_2;
          [intros H; repeat (apply elem_of_cons in H as [H|H]; [discriminate H|]);
           by apply not_elem_of_nil in H|]).
  constructor.
Defined.

(** X10. Every record the normalizer makes can be shown and keyed: its
    name is not empty, a missing or empty [name] tag being replaced by
    the capitalized type and the numeric id, and neither is its id. *)
Theorem normalized_record_is_labelled (e : OverpassElement) :
  match transformToShelter e with
  | Some r =>
      name r <> "" /\ id r <> "" /\
      (forall n, tag tag_name e = Some n -> n <> "" -> name r = n) /\
      (tag tag_name e = None \/ tag tag_name e = Some "" ->
       name r = Js.capitalize (ShelterType_string (type r)) +:+ " #"
                  +:+ Js.Number_toString (el_id e))
  | None => True
  end.
Proof.
  unfold transformToShelter. destruct (extractCoordinates e); [|done]. simpl.
  destruct (tag tag_name e) as [[|c n]|]; simpl;
    repeat split; intros; simplify_eq/=; try done;
    try (by destruct (mapAmenityToType (tag tag_amenity e)));
    intuition congruence.
Qed.

(** ** The filter menu of the map screen *)

Section Filters.

Import MapScreen.

Implicit Types (f : gset ShelterType) (t : ShelterType).

Lemma toggleFilter_nonempty t f : toggleFilter t f <> ∅.
Proof.
  unfold toggleFilter. repeat case_decide.
  - intros Hempty. assert (Hs : size (f ∖ {[ t ]}) = 0%nat) by (by rewrite Hempty, size_empty).
    rewrite size_difference, size_singleton in Hs by set_solver. lia.
  - set_solver.
  - set_solver.
Qed.

Lemma toggleAllFilters_nonempty f : toggleAllFilters f <> ∅.
Proof. unfold toggleAllFilters. case_decide; set_solver. Qed.

Lemma toggleFilter_unknown t f :
  t <> unknown -> unknown ∉ f -> unknown ∉ toggleFilter t f.
Proof. unfold toggleFilter. repeat case_decide; set_solver. Qed.

Lemma toggleAllFilters_unknown f : unknown ∉ toggleAllFilters f.
Proof. unfold toggleAllFilters, allTypes. case_decide; set_solver. Qed.

End Filters.

(** X11. The filter menu cannot hide everything: after any sequence of
    taps, starting from any state of the screen, at least one type is
    selected; a tap on the only selected row is ignored, and the link of
    the header selects all five types or hospitals alone. *)
Theorem filters_never_empty (taps : list MapScreen.Tap) (st : MapScreen.Screen) :
  taps <> [] ->
  MapScreen.activeFilters (fold_left (fun st t => MapScreen.tap t st) taps st) <> ∅.
Proof.
  intros Htaps. destruct (exists_last Htaps) as (taps' & t & ->).
  rewrite fold_left_app. simpl.
  destruct t; simpl; [apply toggleFilter_nonempty|apply toggleAllFilters_nonempty].
Qed.

Lemma deselecting_the_last_filter_is_ignored :
  MapScreen.activeFilters
    (fold_left (fun st t => MapScreen.tap t st)
       [MapScreen.TapAll; MapScreen.TapRow hospital] MapScreen.initial) <> ∅.
Proof. apply filters_never_empty. discriminate. Defined.

(** X12. A shelter whose amenity the normalizer does not know (type
    [unknown]) is never drawn: no row of the menu carries that type, so
    from a selection without it, the initial one for instance, no sequence
    of taps in the menu selects it, and [filteredShelters] leaves such
    shelters out. *)
Theorem unknown_shelters_are_never_shown
    (taps : list MapScreen.Tap) (st : MapScreen.Screen) :
  unknown ∉ MapScreen.activeFilters st ->
  Forall MapScreen.menu_tap taps ->
  let st' := fold_left (fun st t => MapScreen.tap t st) taps st in
  (unknown ∉ MapScreen.activeFilters st') /\
  MapScreen.shelters st' = MapScreen.shelters st /\
  forall shelter, shelter ∈ MapScreen.filteredShelters st' -> type shelter <> unknown.
Proof.
  intros Hst Htaps.
  assert (H : (unknown ∉ MapScreen.activeFilters
                           (fold_left (fun st t => MapScreen.tap t st) taps st)) /\
              MapScreen.shelters (fold_left (fun st t => MapScreen.tap t st) taps st) =
                MapScreen.shelters st).
  { revert st Hst. induction Htaps as [|t taps Ht _ IH]; intros st Hst; [done|].
    simpl. destruct (IH (MapScreen.tap t st)) as [H1 H2].
    - destruct t as [ty|]; simpl.
      + apply toggleFilter_unknown; [|done].
        simpl in Ht. unfold MapScreen.allTypes in Ht. intros ->. set_solver.
      + apply toggleAllFilters_unknown.
    - split; [done|]. rewrite H2. by destruct t. }
  destruct H as [H1 H2]. simpl. split; [done|]. split; [done|].
  intros shelter Hin. unfold MapScreen.filteredShelters in Hin.
  apply list_elem_of_filter in Hin as [Hin _]. intros Heq. by rewrite Heq in Hin.
Qed.

(** ** Toggling a filter *)

(** X13. Tapping a row twice restores the selection, provided something
    was selected: the first tap removes or adds the type (or is ignored
    when it is the only one), and the second undoes it. *)
Theorem toggleFilter_twice (t : ShelterType) (f : gset ShelterType) :
  f <> ∅ ->
  MapScreen.toggleFilter t (MapScreen.toggleFilter t f) = f.
Proof.
  intros Hf. unfold MapScreen.toggleFilter at 2.
  destruct (decide (t ∈ f)) as [Hin|Hout].
  - destruct (decide (1 < size f)%nat) as [Hsize|Hsize].
    + unfold MapScreen.toggleFilter. rewrite decide_False by set_solver.
      apply set_eq. intros x. destruct (decide (x = t)); set_solver.
    + unfold MapScreen.toggleFilter. rewrite decide_True by done.
      by rewrite decide_False by done.
  - unfold MapScreen.toggleFilter. rewrite decide_True by set_solver.
    assert (size f <> 0%nat) by (by rewrite size_non_empty_iff; intros ?%leibniz_equiv).
    rewrite decide_True.
    + set_solver.
    + rewrite size_union, size_singleton by set_solver. lia.
Qed.

Lemma toggle_hospital_twice :
  MapScreen.toggleFilter hospital
    (MapScreen.toggleFilter hospital (MapScreen.activeFilters MapScreen.initial)) =
  MapScreen.activeFilters MapScreen.initial.
Proof. apply toggleFilter_twice. unfold MapScreen.initial, MapScreen.allTypes. set_solver. Defined.

Lemma mystery_is_never_shown :
  (unknown ∉ MapScreen.activeFilters
     (fold_left (fun st t => MapScreen.tap t st)
        [MapScreen.TapRow hospital; MapScreen.TapAll; MapScreen.TapRow bunker]
        MoreSamples.loaded)) /\
  MapScreen.shelters
    (fold_left (fun st t => MapScreen.tap t st)
       [MapScreen.TapRow hospital; MapScreen.TapAll; MapScreen.TapRow bunker]
       MoreSamples.loaded) = [Samples.cityHospital; MoreSamples.mystery] /\
  forall shelter,
    shelter ∈ MapScreen.filteredShelters
      (fold_left (fun st t => MapScreen.tap t st)
         [MapScreen.TapRow hospital; MapScreen.TapAll; MapScreen.TapRow bunker]
         MoreSamples.loaded) ->
    type shelter <> unknown.
Proof.
  apply (unknown_shelters_are_never_shown
           [MapScreen.TapRow hospital; MapScreen.TapAll; MapScreen.TapRow bunker]
           MoreSamples.loaded).
  - unfold MoreSamples.loaded, MapScreen.initial, MapScreen.allTypes. simpl. set_solver.
  - repeat constructor; unfold MapScreen.allTypes; set_solver.
Defined.

(** ** The map screen and the service *)

Section Screen.

Import MapScreen.

Variable env : Env.

(** X14. The refresh button shows what [refreshShelters] returned:
    [handleRefreshShelters] never throws, runs the service once on the
    device and stores its result with the spinner off.  It then shows
    one alert: "Succes" with the number of shelters of the result when
    that is tagged [api], and otherwise "Atenție" with the diagnostic of
    the result, which is also the error the screen keeps.  The alert
    "Eroare" is never shown, since [refreshShelters] never throws, and
    the list on the screen is not empty. *)
Theorem handleRefreshShelters_one_alert (st : Screen) (s : State) :
  exists r w st' s',
    refreshShelters env (device s) = (Ok r, w) /\
    handleRefreshShelters env st s = (Ok st', s') /\
    device s' = w /\
    st' = setSheltersLoading false (setResult r (setSheltersLoading true st)) /\
    shelters st' <> [] /\
    match source r with
    | api =>
        error r = None /\ sheltersError st' = None /\
        events s' =
          (events s ++
           [Alert "Succes"
              ("Datele au fost actualizate. "
               +:+ Js.Number_toString (Z.of_nat (length (Types.shelters r)))
               +:+ " locații găsite.")])%list
    | _ =>
        exists message,
          error r = Some message /\ message <> "" /\
          sheltersError st' = Some message /\
          events s' = (events s ++ [Alert "Atenție" message])%list
    end.
Proof.
  unfold handleRefreshShelters. run_task.
  destruct (refreshShelters_cases env (device s)) as (c & w' & _ & _ & H).
  destruct (fetchFromAPI env (device s)).1 as [[|x l]|e]; destruct H as [_ ->]; simpl.
  - destruct (usable c) as [[|y l']|] eqn:Hu; simpl;
      try (by destruct c as [[|? ?]|]);
      do 4 eexists; (split; [reflexivity|]); (split; [reflexivity|]); simpl;
      (split; [done|]); (split; [done|]); (split; [done|]);
      eexists; repeat split; done.
  - do 4 eexists. (split; [reflexivity|]); (split; [reflexivity|]); simpl.
    repeat split; done.
  - destruct (usable c) as [[|y l']|] eqn:Hu; simpl;
      try (by destruct c as [[|? ?]|]);
      do 4 eexists; (split; [reflexivity|]); (split; [reflexivity|]); simpl;
      (split; [done|]); (split; [done|]); (split; [done|]);
      eexists; repeat split; done.
Qed.

(** X15. The load on mount: [loadShelters] never throws and never sets
    the error "Eroare la încărcarea locațiilor".  While the screen is
    mounted it ends with the spinner off, a list that is not empty, its
    tag, the diagnostic of the service (none exactly when the tag is
    [api]) and one console line.  On a screen unmounted meanwhile it sets
    nothing and logs nothing, and the service has run all the same. *)
Theorem loadShelters_outcome (isMounted : bool) (st : Screen) (s : State) :
  exists r w st' s',
    getShelters env (device s) = (Ok r, w) /\
    loadShelters env isMounted st s = (Ok st', s') /\
    device s' = w /\
    if isMounted then
      st' = setSheltersLoading false (setResult r (setSheltersLoading true st)) /\
      shelters st' <> [] /\
      (sheltersError st' = None <-> sheltersSource st' = Some api) /\
      events s' = (events s ++ [LogScreenLoaded (length (shelters st')) (source r)])%list
    else
      st' = setSheltersLoading true st /\ events s' = events s.
Proof.
  unfold loadShelters. run_task.
  destruct (getShelters_cases env (device s)) as (c & w1 & w' & _ & _ & H).
  destruct (fetchFromAPI env (device s)).1 as [[|x l]|e]; destruct H as [_ ->]; simpl.
  - destruct (usable c) as [[|y l']|] eqn:Hu; simpl;
      try (by destruct c as [[|? ?]|]);
      destruct isMounted; simpl;
      do 4 eexists; (split; [reflexivity|]); (split; [reflexivity|]); simpl;
      repeat split; done.
  - destruct isMounted; simpl;
      do 4 eexists; (split; [reflexivity|]); (split; [reflexivity|]); simpl;
      repeat split; done.
  - destruct (usable c) as [[|y l']|] eqn:Hu; simpl;
      try (by destruct c as [[|? ?]|]);
      destruct isMounted; simpl;
      do 4 eexists; (split; [reflexivity|]); (split; [reflexivity|]); simpl;
      repeat split; done.
Qed.

End Screen.

(** ** Retrieval of knowledge entries *)

Section Retrieval.

Import Rag.

Lemma cosineSimilarity_ok_iff a b :
  (exists x, cosineSimilarity a b = Ok x) <-> length a = length b.
Proof.
  unfold cosineSimilarity.
  destruct (length a =? length b)%nat eqn:Hlen; simpl.
  - apply Nat.eqb_eq in Hlen. split; [done|]. intros _.
    destruct (sums (zip a b)) as [[d na] nb]. case_match; eauto.
  - apply Nat.eqb_neq in Hlen. split; [by intros [x Hx]|done].
Qed.

Lemma cosineSimilarity_throw a b e :
  cosineSimilarity a b = Throw e ->
  e = ErrorObj "Vectors must have the same length" /\ length a <> length b.
Proof.
  unfold cosineSimilarity.
  destruct (length a =? length b)%nat eqn:Hlen; simpl.
  - destruct (sums (zip a b)) as [[d na] nb]. by case_match.
  - apply Nat.eqb_neq in Hlen. by intros [= <-].
Qed.

Lemma map_throwing_ok {A B} (f : A -> Result B) l ys :
  map_throwing f l = Ok ys <-> Forall2 (fun x y => f x = Ok y) l ys.
Proof.
  revert ys. induction l as [|x l IH]; intros ys; simpl.
  - split; [intros [= <-]; constructor|by intros ->%Forall2_nil_inv_l].
  - destruct (f x) as [y|e] eqn:Hx.
    + destruct (map_throwing f l) as [ys'|e] eqn:Hl.
      * split.
        -- intros [= <-]. constructor; [done|]. by apply IH.
        -- intros (y' & ys'' & Hy & Hys & ->)%Forall2_cons_inv_l.
           apply IH in Hys. congruence.
      * split; [done|].
        intros (y' & ys'' & Hy & Hys & ->)%Forall2_cons_inv_l.
        apply IH in Hys. congruence.
    + split; [done|]. intros (y' & ys'' & Hy & _)%Forall2_cons_inv_l. congruence.
Qed.

Lemma map_throwing_throw {A B} (f : A -> Result B) l e :
  map_throwing f l = Throw e -> exists x, x ∈ l /\ f x = Throw e.
Proof.
  induction l as [|x l IH]; simpl; [done|].
  destruct (f x) as [y|e'] eqn:Hx.
  - destruct (map_throwing f l) as [ys'|e'] eqn:Hl; [done|].
    intros [= ->]. destruct IH as (x' & Hin & Hx'); [done|].
    exists x'. split; [by right|done].
  - intros [= ->]. exists x. split; [by left|done].
Qed.

Lemma insert_Permutation {A} (cmp : A -> A -> float) x l :
  insert cmp x l ≡ₚ x :: l.
Proof.
  induction l as [|y l IH]; simpl; [done|].
  case_match; [done|]. rewrite IH. apply Permutation_swap.
Qed.

Lemma Array_sort_Permutation {A} (cmp : A -> A -> float) l :
  Array_sort cmp l ≡ₚ l.
Proof.
  unfold Array_sort.
  assert (H : forall acc, fold_left (fun sorted x => insert cmp x sorted) l acc ≡ₚ l ++ acc).
  { induction l as [|x l IH]; intros acc; simpl; [done|].
    rewrite IH, insert_Permutation. by rewrite Permutation_middle. }
  by rewrite H, app_nil_r.
Qed.

Lemma Array_slice0_sublist {A} k (l : list A) : Array_slice0 k l `sublist_of` l.
Proof. unfold Array_slice0. apply sublist_take. Qed.

Lemma Array_slice0_length {A} k (l : list A) :
  0 <= k -> (length (Array_slice0 k l) <= Z.to_nat k)%nat.
Proof.
  intros Hk. unfold Array_slice0. rewrite length_take.
  destruct (k <? 0) eqn:E; lia.
Qed.

Lemma SFeqb_refl x : x <> SpecFloat.S754_nan -> SpecFloat.SFeqb x x = true.
Proof.
  unfold SpecFloat.SFeqb. destruct x as [s|s| |s m e]; simpl; try done; intros _.
  - by destruct s.
  - rewrite Z.compare_refl, Pos.compare_cont_refl. by destruct s.
Qed.

(** A number that is at least some other number is not NaN. *)
Lemma leb_not_nan (x y : float) : (x <=? y)%float = true -> is_nan y = false.
Proof.
  unfold is_nan. rewrite FloatAxioms.leb_spec, FloatAxioms.eqb_spec. intros H.
  rewrite SFeqb_refl; [done|].
  intros Hnan. rewrite Hnan in H. unfold SpecFloat.SFleb in H.
  by destruct (Prim2SF x).
Qed.

(** X16. [retrieveRelevantContext] throws exactly when some entry of the
    knowledge base has an embedding of another length than the query, and
    then with the error of [cosineSimilarity], "Vectors must have the same
    length"; one such entry anywhere in the base loses the whole answer. *)
Theorem retrieveRelevantContext_throws_iff
    (queryEmbedding : list float) (knowledgeBase : list KnowledgeEntry)
    (topK : Z) (threshold : float) :
  match retrieveRelevantContext queryEmbedding knowledgeBase topK threshold with
  | Ok l =>
      Forall (fun entry => length (embedding entry) = length queryEmbedding) knowledgeBase
  | Throw e =>
      e = ErrorObj "Vectors must have the same length" /\
      Exists (fun entry => length (embedding entry) <> length queryEmbedding) knowledgeBase
  end.
Proof.
  unfold retrieveRelevantContext.
  destruct (map_throwing _ knowledgeBase) as [scored|e] eqn:Hmap.
  - apply map_throwing_ok in Hmap. apply Forall_forall. intros entry Hin.
    apply list_elem_of_lookup in Hin as [i Hi].
    destruct (Forall2_lookup_l _ _ _ _ _ Hmap Hi) as (y & _ & Hy).
    destruct (cosineSimilarity queryEmbedding (embedding entry)) as [x|] eqn:Hc; [|done].
    symmetry. apply cosineSimilarity_ok_iff. eauto.
  - apply map_throwing_throw in Hmap as (entry & Hin & Hentry).
    destruct (cosineSimilarity queryEmbedding (embedding entry)) as [x|e'] eqn:Hc; [done|].
    injection Hentry as ->.
    apply cosineSimilarity_throw in Hc as [-> Hlen].
    split; [done|]. apply Exists_exists. exists entry. split; [done|congruence].
Qed.

(** X17. What [retrieveRelevantContext] returns: at most [topK] items
    when [topK] is not negative, never more than the base has; each item
    is an entry of the base with its own cosine similarity to the query as
    score, and that score is a number, not NaN, at least [threshold]. *)
Theorem retrieveRelevantContext_result
    (queryEmbedding : list float) (knowledgeBase : list KnowledgeEntry)
    (topK : Z) (threshold : float) (l : list Scored) :
  retrieveRelevantContext queryEmbedding knowledgeBase topK threshold = Ok l ->
  (0 <= topK -> (length l <= Z.to_nat topK)%nat) /\
  (length l <= length knowledgeBase)%nat /\
  Forall (fun item =>
            entry item ∈ knowledgeBase /\
            cosineSimilarity queryEmbedding (embedding (entry item)) = Ok (score item) /\
            (threshold <=? score item)%float = true /\
            is_nan (score item) = false) l.
Proof.
  unfold retrieveRelevantContext.
  destruct (map_throwing _ knowledgeBase) as [scored|e] eqn:Hmap; [|done].
  intros [= <-]. apply map_throwing_ok in Hmap.
  set (kept := filter (fun item => (threshold <=? score item)%float = true) scored).
  set (sorted := Array_sort (fun a b => (score b - score a)%float) kept).
  assert (Hsub : Array_slice0 topK sorted `sublist_of` sorted) by apply Array_slice0_sublist.
  assert (Hperm : sorted ≡ₚ kept) by apply Array_sort_Permutation.
  split; [intros Hk; by apply Array_slice0_length|]. split.
  - etrans; [apply sublist_length, Hsub|]. rewrite Hperm.
    etrans; [apply length_filter|]. by rewrite <- (Forall2_length _ _ _ Hmap).
  - apply Forall_forall. intros item Hin.
    apply (elem_of_sublist _ _ _ Hin) in Hsub as Hin'. rewrite Hperm in Hin'.
    clear Hin. rename Hin' into Hin.
    apply list_elem_of_filter in Hin as [Hth Hin].
    apply list_elem_of_lookup in Hin as [i Hi].
    destruct (Forall2_lookup_r _ _ _ _ _ Hmap Hi) as (x & Hx & Hscore).
    destruct (cosineSimilarity queryEmbedding (embedding x)) as [sc|] eqn:Hc; [|done].
    injection Hscore as <-. simpl in *.
    split; [by eapply list_elem_of_lookup_2|]. split; [done|]. split; [done|].
    by eapply leb_not_nan.
Qed.
End Retrieval.

Section Context.

Import Rag.

Lemma Map_has_keys {V} key (m : list (string * V)) :
  Map_has key m = true <-> key ∈ m.*1.
Proof.
  unfold Map_has. rewrite existsb_exists. split.
  - intros ([k v] & Hin & Heq). apply String.eqb_eq in Heq. simpl in Heq. subst.
    apply list_elem_of_fmap. exists (key, v). split; [done|]. by apply list_elem_of_In.
  - intros ([k v] & -> & Hin)%list_elem_of_fmap. exists (k, v).
    split; [by apply list_elem_of_In|]. apply String.eqb_refl.
Qed.

(** The keys of [uniqueAnswers], built on a map [m] whose values answer
    to their keys. *)
Lemma uniqueAnswers_fold (l : list Scored) (m : list (string * Scored)) :
  NoDup m.*1 ->
  Forall (fun kv => response (entry kv.2) = kv.1) m ->
  let m' :=
    fold_left
      (fun m item =>
         let responseText := response (entry item) in
         if negb (Map_has responseText m) then Map_set responseText item m else m)
      l m in
  NoDup m'.*1 /\
  Forall (fun kv => response (entry kv.2) = kv.1) m' /\
  (forall x, x ∈ m'.*1 <-> x ∈ m.*1 \/ x ∈ (fun item => response (entry item)) <$> l) /\
  exists added,
    m'.*1 = (m.*1 ++ added)%list /\
    added `sublist_of` ((fun item => response (entry item)) <$> l).
Proof.
  revert m. induction l as [|item l IH]; intros m Hnodup Hvalues; simpl.
  - repeat split; try done.
    + by left.
    + intros [?|Hin]; [done|]. by apply elem_of_nil in Hin.
    + exists []. by rewrite app_nil_r.
  - destruct (Map_has (response (entry item)) m) eqn:Hhas; simpl.
    + apply Map_has_keys in Hhas.
      destruct (IH m Hnodup Hvalues) as (H1 & H2 & H3 & added & H4 & H5).
      repeat split; try done.
      * intros Hx. apply H3 in Hx as [?|?]; [by left|right; by right].
      * intros [?|Hx]; apply H3; [by left|].
        apply elem_of_cons in Hx as [->|?]; [by left|by right].
      * exists added. split; [done|]. by apply sublist_cons.
    + assert (Hnew : response (entry item) ∉ m.*1).
      { intros Hin. apply Map_has_keys in Hin. congruence. }
      assert (Hset : Map_set (response (entry item)) item m =
                     (m ++ [(response (entry item), item)])%list)
        by (unfold Map_set; by rewrite Hhas).
      rewrite Hset.
      destruct (IH (m ++ [(response (entry item), item)])%list) as (H1 & H2 & H3 & added & H4 & H5).
      * rewrite fmap_app. simpl. apply NoDup_app. repeat split; [done| |apply NoDup_singleton].
        intros x Hx Hx'. apply list_elem_of_singleton in Hx'. by subst.
      * apply Forall_app. split; [done|]. by constructor.
      * rewrite fmap_app in H3, H4. simpl in H3, H4.
        repeat split; try done.
        -- intros Hx. apply H3 in Hx as [Hx|?]; [|right; by right].
           apply elem_of_app in Hx as [?|Hx]; [by left|].
           apply list_elem_of_singleton in Hx as ->. right. by left.
        -- intros [?|Hx]; apply H3.
           ++ left. apply elem_of_app. by left.
           ++ apply elem_of_cons in Hx as [->|?]; [|by right].
              left. apply elem_of_app. right. by apply list_elem_of_singleton.
        -- exists (response (entry item) :: added).
           split; [by rewrite H4, <- app_assoc|]. by apply sublist_skip.
Qed.

Lemma contextTexts_keys (l : list Scored) :
  contextTexts l = (uniqueAnswers l).*1.
Proof.
  assert (Hvalues : Forall (fun kv => response (entry kv.2) = kv.1) (uniqueAnswers l))
    by (apply (uniqueAnswers_fold l []); constructor).
  unfold contextTexts. revert Hvalues. generalize (uniqueAnswers l). intros m Hvalues.
  induction Hvalues as [|[k v] m' Hkv _ IH]; [done|].
  simpl in *. by f_equal.
Qed.

(** One more retrieved entry: its answer is added at the end unless it
    is among the texts already. *)
Lemma contextTexts_snoc (l : list Scored) (item : Scored) :
  contextTexts (l ++ [item]) =
    if decide (response (entry item) ∈ contextTexts l) then contextTexts l
    else (contextTexts l ++ [response (entry item)])%list.
Proof.
  rewrite !contextTexts_keys. unfold uniqueAnswers. rewrite fold_left_app. simpl.
  fold (uniqueAnswers l).
  destruct (Map_has (response (entry item)) (uniqueAnswers l)) eqn:Hhas; simpl.
  - apply Map_has_keys in Hhas. by rewrite decide_True.
  - rewrite decide_False.
    + unfold Map_set. rewrite Hhas. by rewrite fmap_app.
    + intros Hin. apply Map_has_keys in Hin. congruence.
Qed.

Lemma contextTexts_first_occurrences (l : list Scored) :
  first_occurrences ((fun item => response (entry item)) <$> l) (contextTexts l).
Proof.
  induction l as [|item l (Hnodup & Hmem & Horder)] using rev_ind.
  - split; [constructor|]. split; [done|]. intros i j a b _ Hi. done.
  - rewrite fmap_app, contextTexts_snoc. simpl.
    set (seen := (fun item => response (entry item)) <$> l) in *.
    set (t := response (entry item)).
    assert (Hlift : forall (i j : nat) a b,
              (i < j)%nat -> contextTexts l !! i = Some a -> contextTexts l !! j = Some b ->
              exists k : nat,
                (seen ++ [t])%list !! k = Some a /\
                forall k' : nat, (k' <= k)%nat -> (seen ++ [t])%list !! k' <> Some b).
    { intros i j a b Hij Hi Hj.
      destruct (Horder i j a b Hij Hi Hj) as (k & Hk & Hbefore).
      pose proof (lookup_lt_Some _ _ _ Hk) as Hlt.
      exists k. split; [by rewrite lookup_app_l|].
      intros k' Hk'. rewrite lookup_app_l by lia. by apply Hbefore. }
    destruct (decide (t ∈ contextTexts l)) as [Hin|Hout].
    + split; [done|]. split; [|done].
      intros text. rewrite elem_of_app, list_elem_of_singleton, Hmem.
      split; [by left|]. intros [?| ->]; [done|]. by apply Hmem.
    + split; [|split].
      * apply NoDup_app. split; [done|]. split; [|apply NoDup_singleton].
        intros x Hx Hx'. apply list_elem_of_singleton in Hx'. by subst.
      * intros text. by rewrite !elem_of_app, Hmem.
      * intros i j a b Hij Hi Hj.
        pose proof (lookup_lt_Some _ _ _ Hj) as Hlt.
        rewrite length_app in Hlt. simpl in Hlt.
        destruct (decide (j < length (contextTexts l))%nat) as [Hj'|Hj'].
        -- rewrite lookup_app_l in Hi, Hj by lia. exact (Hlift i j a b Hij Hi Hj).
        -- assert (j = length (contextTexts l)) as -> by lia.
           rewrite lookup_app_l in Hi by lia.
           rewrite lookup_app_r, Nat.sub_diag in Hj by lia. injection Hj as <-.
           assert (Ha : a ∈ seen) by (apply Hmem; by eapply list_elem_of_lookup_2).
           apply list_elem_of_lookup in Ha as [k Hk].
           pose proof (lookup_lt_Some _ _ _ Hk) as Hklt.
           exists k. split; [by rewrite lookup_app_l|].
           intros k' Hk' Hb. rewrite lookup_app_l in Hb by lia.
           apply Hout, Hmem. by eapply list_elem_of_lookup_2.
Qed.

(** Only one list has the members of [l] in the order of their first
    occurrence. *)
Lemma first_occurrences_unique (l texts texts' : list string) :
  first_occurrences l texts -> first_occurrences l texts' -> texts' = texts.
Proof.
  intros (Hnodup & Hmem & Horder) (Hnodup' & Hmem' & Horder').
  assert (Hsame : forall x, x ∈ texts' <-> x ∈ texts)
    by (intros x; by rewrite Hmem, Hmem').
  clear Hmem Hmem'. revert texts Hnodup Horder Hsame.
  induction texts' as [|a rest' IH]; intros [|b rest] Hnodup Horder Hsame.
  - done.
  - exfalso. eapply not_elem_of_nil, Hsame. by left.
  - exfalso. eapply not_elem_of_nil, Hsame. by left.
  - apply NoDup_cons in Hnodup as [Hb Hnodup].
    apply NoDup_cons in Hnodup' as [Ha Hnodup'].
    assert (a = b) as ->.
    { destruct (decide (a = b)) as [|Hne]; [done|]. exfalso.
      assert (Hin : a ∈ rest).
      { assert (H : a ∈ b :: rest) by (apply Hsame; by left).
        apply elem_of_cons in H as [?|?]; done. }
      assert (Hin' : b ∈ rest').
      { assert (H : b ∈ a :: rest') by (apply Hsame; by left).
        apply elem_of_cons in H as [?|?]; [by subst|done]. }
      apply list_elem_of_lookup in Hin as [j Hj].
      apply list_elem_of_lookup in Hin' as [j' Hj'].
      destruct (Horder 0%nat (S j) b a) as (k & Hk & Hbefore); [lia|done|done|].
      destruct (Horder' 0%nat (S j') a b) as (k' & Hk' & Hbefore'); [lia|done|done|].
      destruct (le_ge_dec k k').
      - by apply (Hbefore' k).
      - apply (Hbefore k'); [lia|done]. }
    f_equal. apply IH; [done| |done| |].
    + intros i j a b' Hij Hi Hj. apply (Horder' (S i) (S j)); [lia|done|done].
    + intros i j a b' Hij Hi Hj. apply (Horder (S i) (S j)); [lia|done|done].
    + intros x. split; intros Hx.
      * assert (H : x ∈ b :: rest) by (apply Hsame; by right).
        apply elem_of_cons in H as [->|?]; done.
      * assert (H : x ∈ b :: rest') by (apply Hsame; by right).
        apply elem_of_cons in H as [->|?]; done.
Qed.

(** X18. [formatContextForPrompt] joins, with an empty line between them,
    the answers of the retrieved entries without repetition: each answer
    once, none added and none lost, in the order in which the answers
    first occur among the entries; no other list of texts is that. *)
Theorem formatContextForPrompt_first_occurrences (retrievedEntries : list Scored) :
  let responses := (fun item => response (entry item)) <$> retrievedEntries in
  exists texts,
    formatContextForPrompt retrievedEntries =
      String.concat (newline +:+ newline) texts /\
    first_occurrences responses texts /\
    forall texts', first_occurrences responses texts' -> texts' = texts.
Proof.
  simpl. exists (contextTexts retrievedEntries).
  split; [by destruct retrievedEntries|].
  split; [apply contextTexts_first_occurrences|].
  intros texts' H'. eapply first_occurrences_unique; [|exact H'].
  apply contextTexts_first_occurrences.
Qed.

End Context.

(** ** Navigation *)

Section Travel.

Import Navigation.

Lemma append_space_inj s1 s2 r1 r2 :
  nospace s1 -> nospace s2 ->
  s1 +:+ String " " r1 = s2 +:+ String " " r2 -> s1 = s2 /\ r1 = r2.
Proof.
  revert s2. induction s1 as [|c s1 IH]; intros [|c' s2] H1 H2; simpl.
  - by intros [= ->].
  - intros [= <- _]. exfalso. apply (H2 " "%char); [by left|done].
  - intros [= -> _]. exfalso. apply (H1 " "%char); [by left|done].
  - intros [= <- H]. destruct (IH s2) as [-> ->]; [| |done|done].
    + intros x Hx. apply H1. by right.
    + intros x Hx. apply H2. by right.
Qed.

Lemma string_of_uint_nospace d : nospace (NilEmpty.string_of_uint d).
Proof.
  induction d; intros c Hc; simpl in Hc; [done|..];
    (destruct Hc as [<-|Hc]; [done|by apply IHd]).
Qed.

Lemma Number_toString_nospace n : nospace (Js.Number_toString n).
Proof.
  unfold Js.Number_toString.
  destruct (Z.to_int n) as [d|d]; simpl.
  - destruct d; try apply (string_of_uint_nospace (_ _)).
    intros c [<-|[]]. done.
  - intros c [<-|Hc]; [done|]. revert c Hc.
    destruct d; try apply (string_of_uint_nospace (_ _)).
    intros c [<-|[]]. done.
Qed.

(** X19. [formatTravelTime] shows different whole numbers of minutes
    differently: the text determines the duration. *)
Theorem formatTravelTime_inj (a b : Z) :
  formatTravelTime a = formatTravelTime b -> a = b.
Proof.
  unfold formatTravelTime.
  pose proof (Z.div_mod a 60). pose proof (Z.mod_pos_bound a 60).
  pose proof (Z.div_mod b 60). pose proof (Z.mod_pos_bound b 60).
  destruct (Z.ltb_spec a 60), (Z.ltb_spec b 60);
    try destruct (Z.ltb_spec 0 (a mod 60));
    try destruct (Z.ltb_spec 0 (b mod 60));
    simpl; intros Heq;
    apply append_space_inj in Heq as [Hn Hrest];
    try apply Number_toString_nospace;
    try discriminate Hrest;
    apply Number_toString_inj in Hn;
    try (injection Hrest as Hrest;
         apply append_space_inj in Hrest as [Hm _];
         try apply Number_toString_nospace;
         apply Number_toString_inj in Hm);
    lia.
Qed.

End Travel.

Section Open.

Import Navigation.

Variable platform : OS.
Variable show : float -> string.
Variable canOpen : string -> Result bool.
Variable openFault : string -> option Thrown.

(** X20. [openNavigation] never throws and leaves the device alone.  It
    answers true exactly when it handed one address to [Linking.openURL]
    and that was accepted: the address of the application when
    [Linking.canOpenURL] approves it, the web address of Google Maps when
    it does not (or throws) and the application is Google Maps.  For any
    other application that is not approved nothing is opened. *)
Theorem openNavigation_outcome
    (app : NavigationApp) (destination : NavigationDestination) (mode : Mode) (s : State) :
  exists (opened : bool) (s' : State),
    openNavigation show canOpen openFault app destination mode s = (Ok opened, s') /\
    device s' = device s /\
    if opened then
      exists url,
        events s' = (events s ++ [Opened url])%list /\
        openFault url = None /\
        ((canOpen (getUrl app destination mode) = Ok true /\
          url = getUrl app destination mode) \/
         (canOpen (getUrl app destination mode) <> Ok true /\
          name app = "Google Maps" /\ url = webUrl show destination mode))
    else
      (events s' = events s /\ canOpen (getUrl app destination mode) <> Ok true /\
       name app <> "Google Maps") \/
      (exists url e, openFault url = Some e /\
         events s' = (events s ++ [ErrOpening (name app) e])%list).
Proof.
  unfold openNavigation, canOpenUrl, canOpenURL, openURL, webUrl. run_task.
  destruct (canOpen (getUrl app destination mode)) as [[|]|e] eqn:Hcan; simpl.
  - destruct (openFault (getUrl app destination mode)) as [e|] eqn:Hopen; simpl.
    + exists false. eexists. split; [reflexivity|]. split; [done|]. right. eauto.
    + exists true. eexists. split; [reflexivity|]. split; [done|]. eauto 10.
  - destruct (String.eqb_spec (name app) "Google Maps") as [Hname|Hname]; simpl.
    + match goal with |- context [openFault ?u] => destruct (openFault u) as [e|] eqn:Hopen end;
        simpl.
      * exists false. eexists. split; [reflexivity|]. split; [done|]. right. eauto.
      * exists true. eexists. split; [reflexivity|]. split; [done|].
        eexists. split; [reflexivity|]. split; [exact Hopen|]. right. by repeat split.
    + exists false. eexists. split; [reflexivity|]. split; [done|]. left. by repeat split.
  - destruct (String.eqb_spec (name app) "Google Maps") as [Hname|Hname]; simpl.
    + match goal with |- context [openFault ?u] => destruct (openFault u) as [e'|] eqn:Hopen end;
        simpl.
      * exists false. eexists. split; [reflexivity|]. split; [done|]. right. eauto.
      * exists true. eexists. split; [reflexivity|]. split; [done|].
        eexists. split; [reflexivity|]. split; [exact Hopen|]. right. by repeat split.
    + exists false. eexists. split; [reflexivity|]. split; [done|]. left. by repeat split.
Qed.

(** X21. [quickNavigate] always finds Google Maps among the applications
    and always hands an address to [Linking.openURL]: that of the
    application, or the web address, which is the only one used on a
    platform other than Android.  It answers false only when that call
    is rejected. *)
Theorem quickNavigate_opens_something
    (destination : NavigationDestination) (mode : Mode) (s : State) :
  exists url,
    (url = getUrl (googleMaps platform show) destination mode \/
     url = webUrl show destination mode) /\
    (platform <> android -> url = webUrl show destination mode) /\
    quickNavigate platform show canOpen openFault destination mode s =
      match openFault url with
      | None => (Ok true, {| device := device s; events := events s ++ [Opened url] |})
      | Some e =>
          (Ok false,
           {| device := device s; events := events s ++ [ErrOpening "Google Maps" e] |})
      end.
Proof.
  destruct platform;
    unfold quickNavigate, navigationApps, openNavigation, canOpenUrl, canOpenURL,
      openURL, webUrl, latlng;
    simpl; run_task;
    (match goal with |- context [canOpen ?u] => destruct (canOpen u) as [[|]|?] end);
    simpl;
    (match goal with |- context [openFault ?u] => exists u; destruct (openFault u) end);
    simpl; (split; [auto|]); (split; [|done]); try done; by intros [].
Qed.

End Open.

(** ** Examples of the above *)

(** The three best entries of the sample base for the query (1, 0), with
    the default [topK] and [threshold]. *)
Lemma sample_retrieval :
  exists l,
    Rag.retrieveRelevantContext [1; 0]%float MoreSamples.knowledgeBase
      Rag.default_topK Rag.default_threshold = Ok l /\
    (Rag.id ∘ Rag.entry) <$> l = ["a"; "d"; "e"] /\
    Forall (fun item =>
              Rag.entry item ∈ MoreSamples.knowledgeBase /\
              Rag.cosineSimilarity [1; 0]%float (Rag.embedding (Rag.entry item)) =
                Ok (Rag.score item) /\
              (Rag.default_threshold <=? Rag.score item)%float = true /\
              is_nan (Rag.score item) = false) l.
Proof.
  eexists. split; [vm_compute; reflexivity|]. split; [reflexivity|].
  eapply (proj2 (proj2 (retrieveRelevantContext_result [1; 0]%float
                          MoreSamples.knowledgeBase
                          Rag.default_topK Rag.default_threshold _ _))).
  Unshelve. vm_compute. reflexivity.
Defined.

Lemma two_hours_five_minutes :
  Navigation.formatTravelTime 125 = "2 h 5 min" /\ 125 = 2 * 60 + 5.
Proof.
  split; [reflexivity|].
  apply (formatTravelTime_inj 125 (2 * 60 + 5)). reflexivity.
Defined.
